(** * The maze file format of mms: validator, loader and serializer

    A shallow embedding of [src/sim/MazeFileUtilities.cpp]
    ([isMazeFile], [saveMaze], [loadMaze]) together with the helpers of
    [SimUtilities] that these three functions call.

    - A C++ [int] is a [Z]; every [+= 1] of the source goes through
      [int_add], which writes out the two's-complement wrap-around.
    - A [std::string] is a [string]; a file is its content, read line by
      line as [std::getline] does.
    - [std::vector] is [list]; [std::map<Direction, bool>] is a [gmap].
    - A thrown exception or a failed [ASSERT_TR] is [None]. *)

From Stdlib Require Import ZArith Lia Ascii String DecimalString DecimalZ.
From stdpp Require Import base option list gmap.

Local Open Scope Z_scope.

(** ** Machine integers *)

Definition INT_MAX : Z := 2 ^ 31 - 1.
Definition INT_MIN : Z := - 2 ^ 31.

Definition in_int (z : Z) : bool := (INT_MIN <=? z) && (z <=? INT_MAX).

(** The value an [int] holds after an arithmetic result [z] on a
    two's-complement machine.  C++ leaves signed overflow undefined; the
    model takes what the usual targets compute, and the statements that
    need the counters of the source to stay in range bound the number
    of lines or tiles by [INT_MAX]. *)
Definition wrap_int (z : Z) : Z := (z + 2 ^ 31) mod 2 ^ 32 - 2 ^ 31.

Definition int_add (a b : Z) : Z := wrap_int (a + b).

(** The usual arithmetic conversion of an [int] compared with a
    [size_t]: the [int] becomes an unsigned 64-bit value. *)
Definition to_size_t (z : Z) : Z := z mod 2 ^ 64.

(** ** Text *)

Definition newline : ascii := ascii_of_nat 10.

(** [isspace] in the "C" locale: HT, LF, VT, FF, CR and the blank. *)
Definition isspace (c : ascii) : bool :=
  let n := nat_of_ascii c in
  ((9 <=? n)%nat && (n <=? 13)%nat) || (n =? 32)%nat.

Definition snoc_char (s : string) (c : ascii) : string :=
  (s ++ String c EmptyString)%string.

Definition flush_token (cur : string) : list string :=
  match cur with
  | EmptyString => []
  | _ => [cur]
  end.

(** The lines [while (std::getline(file, line))] sees.  [cur] is the
    line being extracted.  At the end of the content a last line is
    delivered only when at least one character was extracted for it. *)
Fixpoint getlines_from (cur : string) (content : string) : list string :=
  match content with
  | EmptyString => flush_token cur
  | String c rest =>
      if Ascii.eqb c newline then cur :: getlines_from EmptyString rest
      else getlines_from (snoc_char cur c) rest
  end.

Definition getlines (content : string) : list string :=
  getlines_from EmptyString content.

(** ** The file system and the log *)

(** What a path refers to: nothing that [SimUtilities::isFile] accepts,
    a file that [std::ifstream] fails to open, or a file with its
    content. *)
Inductive FileState : Type :=
| Absent
| Unreadable
| Readable (content : string).

Record FileSystem : Type := mkFS {
  node : string -> FileState;
  (** whether [std::ofstream] can open the path *)
  writable : string -> bool
}.

(** The file system after a stream opened on [path] has written
    [content] and was closed.  A file is taken to be its path: two
    paths that name one file (links, [./]) are not modelled, and the
    file written can be read afterwards. *)
Definition write_file (fs : FileSystem) (path content : string) : FileSystem :=
  {| node := fun p => if String.eqb p path then Readable content else node fs p;
     writable := writable fs |}.

(** The calls of [L()->warn], each with the arguments of its format
    string, in the order the source passes them. *)
Inductive Warning : Type :=
| NotAFile (path : string)
| CouldNotOpen (path : string)
| IsEmpty (path : string)
| NotSixEntries (path : string) (lineNum : Z) (entries : nat)
| NonNumeric (path : string) (token : string) (lineNum : Z) (position : Z)
| UnexpectedXY (path : string) (x y : Z) (lineNum : Z)
| InvalidWallValue (path : string) (value : Z) (position : Z) (lineNum : Z)
| UnableToSave (path : string).

(** ** Directions *)

Inductive Direction : Type := NORTH | EAST | SOUTH | WEST.

#[global] Instance Direction_eq_dec : EqDecision Direction.
Proof. solve_decision. Defined.

Definition Direction_to_nat (d : Direction) : nat :=
  match d with NORTH => 0 | EAST => 1 | SOUTH => 2 | WEST => 3 end%nat.

Definition Direction_of_nat (n : nat) : option Direction :=
  match n with
  | 0 => Some NORTH | 1 => Some EAST | 2 => Some SOUTH | 3 => Some WEST
  | _ => None
  end%nat.

#[global] Instance Direction_countable : Countable Direction.
Proof.
  refine (inj_countable Direction_to_nat Direction_of_nat _); by intros [].
Defined.

Module SimUtilities.

(** Modelled from the spec: [SimUtilities::isFile] is not among the
    sources; the spec has it hold when the path references an existing
    file. *)
Definition isFile (fs : FileSystem) (path : string) : bool :=
  match node fs path with
  | Absent => false
  | _ => true
  end.

(** Modelled from the spec: [SimUtilities::tokenize] is not among the
    sources; the spec has it split a line on whitespace.  Tokens are
    the maximal runs of non-whitespace characters. *)
Fixpoint tokenize_from (cur : string) (str : string) : list string :=
  match str with
  | EmptyString => flush_token cur
  | String c rest =>
      if isspace c then flush_token cur ++ tokenize_from EmptyString rest
      else tokenize_from (snoc_char cur c) rest
  end.

Definition tokenize (str : string) : list string :=
  tokenize_from EmptyString str.

(** Modelled from the spec: [SimUtilities::isInt] and
    [SimUtilities::strToInt] are not among the sources; the spec has a
    token parse as an integer with an optional leading sign, in base
    10.  The result is stored in an [int], so a token whose value does
    not fit one does not parse.  [strToInt] is [None] on a token that
    is no integer, and [isInt] tells whether it is. *)
Definition parse_decimal (str : string) : option Z :=
  match str with
  | String "+"%char digits => Z.of_uint <$> NilZero.uint_of_string digits
  | _ => Z.of_int <$> NilZero.int_of_string str
  end.

Definition strToInt (str : string) : option Z :=
  z ← parse_decimal str;
  if in_int z then Some z else None.

Definition isInt (str : string) : bool :=
  match strToInt str with
  | Some _ => true
  | None => false
  end.

(** Modelled from the spec: the table [DIRECTIONS] and
    [SimUtilities::getDirectionIndex] are not among the sources; the
    spec fixes the order North, East, South, West for the four wall
    tokens of a line. *)
Definition DIRECTIONS : list Direction := [NORTH; EAST; SOUTH; WEST].

Definition getDirectionIndex (d : Direction) : nat := Direction_to_nat d.

End SimUtilities.

(** What [file << n] writes for an [int] [n]. *)
Definition show_int (n : Z) : string := NilZero.string_of_int (Z.to_int n).

(** ** Tiles and mazes *)

(** Modelled from the spec: the declaration of [BasicTile] is not among
    the sources; the functions use its member [walls] as a
    [std::map<Direction, bool>], and the spec gives a cell nothing but
    its wall flags. *)
Record BasicTile : Type := mkTile { walls : gmap Direction bool }.

(** [std::vector<std::vector<BasicTile>>] *)
Abbreviation Maze := (list (list BasicTile)) (only parsing).

(** [std::map::insert]: the pair is added only when the key is new. *)
Definition map_insert_pair (d : Direction) (b : bool)
    (m : gmap Direction bool) : gmap Direction bool :=
  match m !! d with
  | Some _ => m
  | None => <[d := b]> m
  end.

(** A [for] loop whose body may [return] a warning: the first warning
    ends the loop. *)
Fixpoint first_warning {A : Type} (body : A -> option Warning)
    (range : list A) : option Warning :=
  match range with
  | [] => None
  | a :: range' =>
      match body a with
      | Some w => Some w
      | None => first_warning body range'
      end
  end.

(** A [for] loop over [range] that updates a state and may throw. *)
Fixpoint fold_throwing {A S : Type} (body : S -> A -> option S) (s : S)
    (range : list A) : option S :=
  match range with
  | [] => Some s
  | a :: range' => s' ← body s a; fold_throwing body s' range'
  end.

Module MazeFileUtilities.
Import SimUtilities.

(** *** isMazeFile *)

(** The loop that fills [values] from [tokens]; [i] is the index of the
    head of [tokens].  The test [isInt] and the conversion [strToInt]
    are one match. *)
Fixpoint readValues (path : string) (lineNum : Z) (i : Z)
    (tokens : list string) : Warning + list Z :=
  match tokens with
  | [] => inr []
  | token :: tokens' =>
      match strToInt token with
      | None => inl (NonNumeric path token lineNum (int_add i 1))
      | Some v =>
          match readValues path lineNum (int_add i 1) tokens' with
          | inl w => inl w
          | inr values => inr (v :: values)
          end
      end
  end.

(** [values.at(k)] where [values] holds six entries. *)
Definition at_ (values : list Z) (k : nat) : Z := nth k values 0.

(** The loop over the four wall values. *)
Definition checkWalls (path : string) (lineNum : Z) (values : list Z)
    : option Warning :=
  first_warning
    (fun i : Z =>
       let value := at_ values (Z.to_nat (2 + i)) in
       if negb ((value =? 0) || (value =? 1))
       then Some (InvalidWallValue path value (int_add (2 + i) 1) lineNum)
       else None)
    [0; 1; 2; 3].

(** The body of the [while] loop for one [line], [lineNum] already
    incremented: a warning, or the new [(expectedX, expectedY)]. *)
Definition checkLine (path : string) (lineNum expectedX expectedY : Z)
    (line : string) : Warning + Z * Z :=
  let tokens := tokenize line in
  if negb (6 =? length tokens)%nat
  then inl (NotSixEntries path lineNum (length tokens))
  else
    match readValues path lineNum 0 tokens with
    | inl w => inl w
    | inr values =>
        let caseOne :=
          (at_ values 0 =? expectedX) && (at_ values 1 =? expectedY) in
        let caseTwo :=
          (at_ values 0 =? int_add expectedX 1) && (at_ values 1 =? 0)
          && negb (expectedY =? 0) in
        let checked (state : Z * Z) : Warning + Z * Z :=
          match checkWalls path lineNum values with
          | Some w => inl w
          | None => inr state
          end in
        if caseOne then checked (expectedX, int_add expectedY 1)
        else if caseTwo then checked (int_add expectedX 1, 1)
        else inl (UnexpectedXY path (at_ values 0) (at_ values 1) lineNum)
    end.

(** The [while (std::getline(file, line))] loop: the warning it returns
    with, or the values of [lineNum], [expectedX] and [expectedY] when
    the lines are exhausted. *)
Fixpoint checkLines (path : string) (lineNum expectedX expectedY : Z)
    (lines : list string) : Warning + Z * Z * Z :=
  match lines with
  | [] => inr (lineNum, expectedX, expectedY)
  | line :: lines' =>
      let lineNum := int_add lineNum 1 in
      match checkLine path lineNum expectedX expectedY line with
      | inl w => inl w
      | inr (expectedX, expectedY) =>
          checkLines path lineNum expectedX expectedY lines'
      end
  end.

(** The result of [isMazeFile] and what it logs. *)
Definition isMazeFile (fs : FileSystem) (mazeFilePath : string)
    : bool * list Warning :=
  if negb (isFile fs mazeFilePath) then (false, [NotAFile mazeFilePath])
  else
    match node fs mazeFilePath with
    | Readable content =>
        match content with
        | EmptyString => (false, [IsEmpty mazeFilePath])
        | _ =>
            match checkLines mazeFilePath 0 0 0 (getlines content) with
            | inl w => (false, [w])
            | inr _ => (true, [])
            end
        end
    | _ => (false, [CouldNotOpen mazeFilePath])
    end.

(** *** saveMaze *)

(** One line of the file: [x], [y] and the four walls in the order of
    [DIRECTIONS], ended by [std::endl].  [None] when [walls.at] throws
    for a direction the tile has no entry for. *)
Definition tileLine (x y : Z) (tile : BasicTile) : option string :=
  bits ← mapM (fun d => b ← walls tile !! d;
                        Some (" " ++ show_int (if b : bool then 1 else 0))%string)
              DIRECTIONS;
  Some (show_int x ++ " " ++ show_int y
        ++ String.concat "" bits ++ String newline "")%string.

(** The inner loop over the rows [y], [y + 1], ... of column [x]. *)
Fixpoint columnText (x y : Z) (column : list BasicTile) : option string :=
  match column with
  | [] => Some EmptyString
  | tile :: column' =>
      l ← tileLine x y tile;
      r ← columnText x (int_add y 1) column';
      Some (l ++ r)%string
  end.

(** The outer loop over the columns [x], [x + 1], ... *)
Fixpoint mazeText (x : Z) (maze : Maze) : option string :=
  match maze with
  | [] => Some EmptyString
  | column :: maze' =>
      c ← columnText x 0 column;
      r ← mazeText (int_add x 1) maze';
      Some (c ++ r)%string
  end.

(** The file system after [saveMaze] and what it logs; [None] when an
    exception leaves the function. *)
Definition saveMaze (fs : FileSystem) (maze : Maze) (mazeFilePath : string)
    : option (FileSystem * list Warning) :=
  if negb (writable fs mazeFilePath)
  then Some (fs, [UnableToSave mazeFilePath])
  else
    content ← mazeText 0 maze;
    Some (write_file fs mazeFilePath content, []).

(** *** loadMaze *)

(** The tile built from the tokens of a line; [None] when [tokens.at]
    or [strToInt] fails. *)
Definition readTile (tokens : list string) : option BasicTile :=
  fold_throwing
    (fun (tile : BasicTile) (direction : Direction) =>
       token ← tokens !! (2 + getDirectionIndex direction)%nat;
       v ← strToInt token;
       Some (mkTile (map_insert_pair direction (1 =? v) (walls tile))))
    (mkTile ∅) DIRECTIONS.

(** The [while (getline(file, line))] loop followed by the final
    [maze.push_back(column)]. *)
Fixpoint loadLines (maze : Maze) (column : list BasicTile)
    (lines : list string) : option Maze :=
  match lines with
  | [] => Some (maze ++ [column])
  | line :: lines' =>
      let tokens := tokenize line in
      tile ← readTile tokens;
      token ← tokens !! 0%nat;
      x ← strToInt token;
      if Z.of_nat (length maze) <? to_size_t x
      then loadLines (maze ++ [column]) [tile] lines'
      else loadLines maze (column ++ [tile]) lines'
  end.

(** [None] when [ASSERT_TR] fails or an exception leaves the
    function. *)
Definition loadMaze (fs : FileSystem) (mazeFilePath : string) : option Maze :=
  if (isMazeFile fs mazeFilePath).1
  then
    match node fs mazeFilePath with
    | Readable content => loadLines [] [] (getlines content)
    | _ => loadLines [] [] []
    end
  else None.

End MazeFileUtilities.

Import SimUtilities MazeFileUtilities.

(** ** Vocabulary of the statements *)

(** [std::endl] as text. *)
Definition endl : string := String newline EmptyString.

(** The content of a file given line by line, every line ended. *)
Definition fileOfLines (lines : list string) : string :=
  foldr (fun l r => (l ++ endl ++ r)%string) EmptyString lines.

(** The answer [isMazeFile] gives when its loop ends with [o]. *)
Definition verdict {S : Type} (o : Warning + S) : bool * list Warning :=
  match o with
  | inl w => (false, [w])
  | inr _ => (true, [])
  end.

(** The integers a line tokenizes into, when all of its tokens are. *)
Definition lineValues (line : string) : option (list Z) :=
  mapM strToInt (tokenize line).

Definition isBit (v : Z) : bool := (v =? 0) || (v =? 1).

(** A line of exactly six integers, the last four in {0, 1}. *)
Definition wellFormedLine (line : string) : bool :=
  match lineValues line with
  | Some [_; _; n; e; s; w] => forallb isBit [n; e; s; w]
  | _ => false
  end.

(** The coordinates of a line of six integers. *)
Definition lineXY (line : string) : option (Z * Z) :=
  match lineValues line with
  | Some [x; y; _; _; _; _] => Some (x, y)
  | _ => None
  end.

(** The decision of the two cases of [isMazeFile] on the coordinates
    [(x, y)] of a line: the next [(expectedX, expectedY)], if any. *)
Definition coordStep (expectedX expectedY x y : Z) : option (Z * Z) :=
  if (x =? expectedX) && (y =? expectedY)
  then Some (expectedX, int_add expectedY 1)
  else if (x =? int_add expectedX 1) && (y =? 0) && negb (expectedY =? 0)
  then Some (int_add expectedX 1, 1)
  else None.

(** The state machine run over the coordinates of successive lines. *)
Fixpoint coordScan (expectedX expectedY : Z) (cs : list (Z * Z)) : bool :=
  match cs with
  | [] => true
  | (x, y) :: cs' =>
      match coordStep expectedX expectedY x y with
      | Some (ex, ey) => coordScan ex ey cs'
      | None => false
      end
  end.

(** The coordinates [(x, y)], [(x, y + 1)], ..., [(x, y + k - 1)]. *)
Definition columnFrom (x y : Z) (k : nat) : list (Z * Z) :=
  (fun j : nat => (x, y + Z.of_nat j)) <$> seq 0 k.

(** The coordinates of columns [x], [x + 1], ... of lengths [ks]. *)
Fixpoint progressionFrom (x : Z) (ks : list nat) : list (Z * Z) :=
  match ks with
  | [] => []
  | k :: ks' => columnFrom x 0 k ++ progressionFrom (x + 1) ks'
  end.

(** (0,0), (0,1), ..., (0,k0-1), (1,0), ..., (1,k1-1), (2,0), ... *)
Definition progression (ks : list nat) : list (Z * Z) := progressionFrom 0 ks.

Fixpoint allChars (p : ascii -> bool) (s : string) : bool :=
  match s with
  | EmptyString => true
  | String c s' => p c && allChars p s'
  end.

Definition notSpace (c : ascii) : bool := negb (isspace c).
Definition notNewline (c : ascii) : bool := negb (Ascii.eqb c newline).

(** The characters [file << n] can write for an [int]. *)
Definition isNumberChar (c : ascii) : bool :=
  let n := nat_of_ascii c in
  ((48 <=? n)%nat && (n <=? 57)%nat) || (n =? 45)%nat.

(** The tile [loadMaze] builds from the four wall values of a line. *)
Definition tileOf (n e s w : Z) : BasicTile :=
  mkTile (<[WEST := 1 =? w]> (<[SOUTH := 1 =? s]> (<[EAST := 1 =? e]>
            (<[NORTH := 1 =? n]> ∅)))).

(** The coordinates and the tile of a line of six integers. *)
Definition lineCell (line : string) : option (Z * Z * BasicTile) :=
  match lineValues line with
  | Some [x; y; n; e; s; w] => Some (x, y, tileOf n e s w)
  | _ => None
  end.

(** The X-value of a line. *)
Definition lineX (line : string) : option Z := fst <$> lineXY line.

(** A tile with a flag for each of the four directions. *)
Definition fullTile (tile : BasicTile) : Prop :=
  forall d : Direction, is_Some (walls tile !! d).

Definition wallFlag (tile : BasicTile) (d : Direction) : bool :=
  default false (walls tile !! d).

(** The line [saveMaze] writes for a tile, without its [std::endl]. *)
Definition cellLine (cell : Z * Z * BasicTile) : string :=
  let '(x, y, tile) := cell in
  let bit d := show_int (if wallFlag tile d then 1 else 0) in
  (show_int x ++ " " ++ show_int y ++ " " ++ bit NORTH ++ " " ++ bit EAST
   ++ " " ++ bit SOUTH ++ " " ++ bit WEST)%string.

(** The tiles of a column with their coordinates, from row [y] on. *)
Fixpoint columnCells (x y : Z) (column : list BasicTile)
    : list (Z * Z * BasicTile) :=
  match column with
  | [] => []
  | tile :: column' => (x, y, tile) :: columnCells x (y + 1) column'
  end.

(** The tiles of a maze with their coordinates, from column [x] on. *)
Fixpoint mazeCells (x : Z) (maze : Maze) : list (Z * Z * BasicTile) :=
  match maze with
  | [] => []
  | column :: maze' => columnCells x 0 column ++ mazeCells (x + 1) maze'
  end.

(** The mazes the file format can hold: at least one column, no empty
    column, every tile with its four flags, and no more tiles than an
    [int] counts. *)
Definition storableMaze (maze : Maze) : Prop :=
  maze <> [] /\
  Forall (fun column => column <> []) maze /\
  Forall (Forall fullTile) maze /\
  Z.of_nat (length (concat maze)) <= INT_MAX.

(** A cell [saveMaze] writes and [loadMaze] reads back unchanged. *)
Definition goodCell (cell : Z * Z * BasicTile) : Prop :=
  in_int cell.1.1 = true /\ in_int cell.1.2 = true /\ fullTile cell.2.

(** A maze with a tile in which no empty column comes before a column
    that is not empty: the empty columns, if any, are its last ones. *)
Definition gaplessMaze (maze : Maze) : Prop :=
  concat maze <> [] /\
  forall (i j : nat) ci cj,
    (i < j)%nat -> maze !! i = Some ci -> maze !! j = Some cj ->
    cj <> [] -> ci <> [].

(** ** Example files *)

(** A file system holding one readable file, where every path can be
    written. *)
Definition fsWith (path content : string) : FileSystem :=
  {| node := fun p => if String.eqb p path then Readable content else Absent;
     writable := fun _ => true |}.

(** Two files side by side. *)
Definition fsWith2 (pathA contentA pathB contentB : string) : FileSystem :=
  {| node := fun p =>
       if String.eqb p pathA then Readable contentA
       else if String.eqb p pathB then Readable contentB
       else Absent;
     writable := fun _ => true |}.

(** A file the process may not read, and an empty one. *)
Definition fsOdd : FileSystem :=
  {| node := fun p =>
       if String.eqb p "locked.maz" then Unreadable
       else if String.eqb p "empty.maz" then Readable EmptyString
       else Absent;
     writable := fun _ => true |}.

(** The scenario of the specification: a column of two tiles followed
    by a column of one. *)
Definition scenarioFile : string :=
  fileOfLines ["0 0 1 1 0 0"; "0 1 0 1 1 0"; "1 0 1 0 0 1"]%string.

Definition scenarioMaze : Maze :=
  [[tileOf 1 1 0 0; tileOf 0 1 1 0]; [tileOf 1 0 0 1]].

(** A one-row column 0 followed by a two-row column 1. *)
Definition skipFile : string :=
  fileOfLines ["0 0 0 0 0 0"; "1 0 0 0 0 0"; "1 1 0 0 0 0"]%string.

(** The X-value jumps from 0 to 2. *)
Definition jumpFile : string :=
  fileOfLines ["0 0 0 0 0 0"; "2 0 0 0 0 0"]%string.

(** Column 1 starts on the second line. *)
Definition twoColumnFile : string :=
  fileOfLines ["0 0 0 0 0 0"; "1 0 0 0 0 0"]%string.

(** The first line names column 1. *)
Definition badStartFile : string := fileOfLines ["1 0 0 0 0 0"]%string.

Definition goodStartFile : string := fileOfLines ["0 0 0 0 0 0"]%string.


(** The second line has a wall value of 2. *)
Definition badWallFile : string :=
  fileOfLines ["0 0 0 0 0 0"; "0 1 0 2 0 0"; "0 2 0 0 0 0"]%string.

(** ** Further vocabulary *)

(** The line number a warning of the loop of [isMazeFile] names. *)
Definition warningLine (w : Warning) : option Z :=
  match w with
  | NotSixEntries _ lineNum _ => Some lineNum
  | NonNumeric _ _ lineNum _ => Some lineNum
  | UnexpectedXY _ _ _ lineNum => Some lineNum
  | InvalidWallValue _ _ _ lineNum => Some lineNum
  | _ => None
  end.

(** The tile at column [x], row [y] of a maze. *)
Definition tileAt (maze : Maze) (x y : Z) : option BasicTile :=
  if (0 <=? x) && (0 <=? y)
  then column ← maze !! Z.to_nat x; column !! Z.to_nat y
  else None.

(** The third token is no integer. *)
Definition nonNumericFile : string :=
  fileOfLines ["0 0 0 0 0 0"; "0 1 x 0 0 0"]%string.

(** The second line repeats the first and has a wall value of 7. *)
Definition repeatedLineFile : string :=
  fileOfLines ["0 0 0 0 0 0"; "0 0 7 0 0 0"]%string.

(** [jumpFile] with a line after the offending one. *)
Definition jumpFileLonger : string :=
  fileOfLines ["0 0 0 0 0 0"; "2 0 0 0 0 0"; "2 1 0 0 0 0"]%string.

(** A tile without a flag for the west. *)
Definition threeWallTile : BasicTile :=
  mkTile (<[SOUTH := false]> (<[EAST := true]> (<[NORTH := false]> ∅))).

(** ** The triangle buffer of [GraphicUtilities.cpp] *)

(** How a function ends that may throw while it changes a state: the
    state it leaves behind either way. *)
Inductive Outcome (S : Type) : Type :=
| Done (s : S)
| Threw (s : S).
Arguments Done {S} s.
Arguments Threw {S} s.

Module GraphicUtilities.

Definition int_mul (a b : Z) : Z := wrap_int (a * b).

(** The declarations of [TriangleGraphic] and of its vertices are not
    among the sources.  Their members are read off the aggregate
    initialisation in [polygonToTriangleGraphics] (six numbers for each
    of three vertices) and off the assignments of the update functions
    ([p1], [p2], [p3]; [r], [g], [b], [a]).  A [GLfloat] is only ever
    copied by the functions modelled here, so its type is left open. *)
Record VertexGraphic (GLfloat : Type) : Type := mkVertex {
  x : GLfloat; y : GLfloat;
  r : GLfloat; g : GLfloat; b : GLfloat; a : GLfloat
}.
Arguments mkVertex {GLfloat} x y r g b a.
Arguments x {GLfloat} v.
Arguments y {GLfloat} v.
Arguments r {GLfloat} v.
Arguments g {GLfloat} v.
Arguments b {GLfloat} v.
Arguments a {GLfloat} v.

Record TriangleGraphic (GLfloat : Type) : Type := mkTriangle {
  p1 : VertexGraphic GLfloat;
  p2 : VertexGraphic GLfloat;
  p3 : VertexGraphic GLfloat
}.
Arguments mkTriangle {GLfloat} p1 p2 p3.
Arguments p1 {GLfloat} t.
Arguments p2 {GLfloat} t.
Arguments p3 {GLfloat} t.

(** [20 * (16 * x + y)]: the number of triangle objects before those
    of the tile. *)
Definition tileIndex (x y : Z) : Z :=
  int_mul 20 (int_add (int_mul 16 x) y).

(** The loop shared by the four [drawTileGraphic...] functions, from
    the triangle [tgs.at(i)] on: a slot that exists is overwritten,
    otherwise the triangle is pushed at the back.  The [int] [index + i]
    is compared with the unsigned size. *)
Fixpoint storeTriangles {GLfloat : Type} (index i : Z)
    (tgs TGB : list (TriangleGraphic GLfloat))
    : list (TriangleGraphic GLfloat) :=
  match tgs with
  | [] => TGB
  | tg :: tgs' =>
      let k := to_size_t (int_add index i) in
      storeTriangles index (int_add i 1) tgs'
        (if k <? Z.of_nat (length TGB)
         then <[Z.to_nat k := tg]> TGB
         else TGB ++ [tg])
  end.

(** The vertex after [r], [g], [b] were assigned [color[0]],
    [color[1]], [color[2]]. *)
Definition setColor {GLfloat : Type} (color : nat -> GLfloat)
    (v : VertexGraphic GLfloat) : VertexGraphic GLfloat :=
  mkVertex (x v) (y v) (color 0%nat) (color 1%nat) (color 2%nat) (a v).

(** The vertex after [a] was assigned [alpha]. *)
Definition setAlpha {GLfloat : Type} (alpha : GLfloat)
    (v : VertexGraphic GLfloat) : VertexGraphic GLfloat :=
  mkVertex (x v) (y v) (r v) (g v) (b v) alpha.

Definition onVertices {GLfloat : Type}
    (f : VertexGraphic GLfloat -> VertexGraphic GLfloat)
    (t : TriangleGraphic GLfloat) : TriangleGraphic GLfloat :=
  mkTriangle (f (p1 t)) (f (p2 t)) (f (p3 t)).

(** The loop [for (int i = 0; i < 2; i += 1)] of the update functions
    over [range]: [TGB.at(index + i)] throws when the slot does not
    exist, after the slots before it were changed. *)
Fixpoint updateTriangles {GLfloat : Type}
    (f : TriangleGraphic GLfloat -> TriangleGraphic GLfloat)
    (index : Z) (range : list Z) (TGB : list (TriangleGraphic GLfloat))
    : Outcome (list (TriangleGraphic GLfloat)) :=
  match range with
  | [] => Done TGB
  | i :: range' =>
      let k := Z.to_nat (to_size_t (int_add index i)) in
      match TGB !! k with
      | None => Threw TGB
      | Some tg => updateTriangles f index range' (<[k := f tg]> TGB)
      end
  end.

Section Drawing.

Context {GLfloat Polygon Coordinate : Type}.

(** [GeometryUtilities::triangulate], with the three points of each
    triangle it returns: not among the sources. *)
Variable triangulate : Polygon -> list (Coordinate * Coordinate * Coordinate).

(** [getOpenGlCoordinates] computes in floating point from the window
    size and the parameters; here it is any function. *)
Variable getOpenGlCoordinates : Coordinate -> GLfloat * GLfloat.

(** The value of the enumeration [Direction] as an [int]; the
    declaration is not among the sources. *)
Variable directionValue : Direction -> Z.

(** The literal [1.0]. *)
Variable one : GLfloat.

Definition polygonToTriangleGraphics (polygon : Polygon)
    (color : nat -> GLfloat) (alpha : GLfloat)
    : list (TriangleGraphic GLfloat) :=
  (fun triangle : Coordinate * Coordinate * Coordinate =>
     let c1 := getOpenGlCoordinates triangle.1.1 in
     let c2 := getOpenGlCoordinates triangle.1.2 in
     let c3 := getOpenGlCoordinates triangle.2 in
     mkTriangle
       (mkVertex c1.1 c1.2 (color 0%nat) (color 1%nat) (color 2%nat) alpha)
       (mkVertex c2.1 c2.2 (color 0%nat) (color 1%nat) (color 2%nat) alpha)
       (mkVertex c3.1 c3.2 (color 0%nat) (color 1%nat) (color 2%nat) alpha))
  <$> triangulate polygon.

Definition baseIndex (x y : Z) : Z := tileIndex x y.

Definition wallIndex (x y : Z) (direction : Direction) : Z :=
  int_add (int_add (tileIndex x y) 2) (int_mul 2 (directionValue direction)).

Definition cornerIndex (x y cornerNumber : Z) : Z :=
  int_add (int_add (tileIndex x y) 10) (int_mul 2 cornerNumber).

Definition fogIndex (x y : Z) : Z := int_add (tileIndex x y) 18.

Definition drawTileGraphicBase (x y : Z) (polygon : Polygon)
    (color : nat -> GLfloat) (TGB : list (TriangleGraphic GLfloat))
    : list (TriangleGraphic GLfloat) :=
  storeTriangles (baseIndex x y) 0
    (polygonToTriangleGraphics polygon color one) TGB.

Definition drawTileGraphicWall (x y : Z) (direction : Direction)
    (polygon : Polygon) (color : nat -> GLfloat) (alpha : GLfloat)
    (TGB : list (TriangleGraphic GLfloat)) : list (TriangleGraphic GLfloat) :=
  storeTriangles (wallIndex x y direction) 0
    (polygonToTriangleGraphics polygon color alpha) TGB.

Definition drawTileGraphicCorner (x y cornerNumber : Z) (polygon : Polygon)
    (color : nat -> GLfloat) (TGB : list (TriangleGraphic GLfloat))
    : list (TriangleGraphic GLfloat) :=
  storeTriangles (cornerIndex x y cornerNumber) 0
    (polygonToTriangleGraphics polygon color one) TGB.

Definition drawTileGraphicFog (x y : Z) (polygon : Polygon)
    (color : nat -> GLfloat) (alpha : GLfloat)
    (TGB : list (TriangleGraphic GLfloat)) : list (TriangleGraphic GLfloat) :=
  storeTriangles (fogIndex x y) 0
    (polygonToTriangleGraphics polygon color alpha) TGB.

Definition updateTileGraphicBaseColor (x y : Z) (color : nat -> GLfloat)
    (TGB : list (TriangleGraphic GLfloat))
    : Outcome (list (TriangleGraphic GLfloat)) :=
  updateTriangles (onVertices (setColor color)) (baseIndex x y) [0; 1] TGB.

Definition updateTileGraphicWallColor (x y : Z) (direction : Direction)
    (color : nat -> GLfloat) (alpha : GLfloat)
    (TGB : list (TriangleGraphic GLfloat))
    : Outcome (list (TriangleGraphic GLfloat)) :=
  updateTriangles (onVertices (fun v => setAlpha alpha (setColor color v)))
    (wallIndex x y direction) [0; 1] TGB.

Definition updateTileGraphicFog (x y : Z) (alpha : GLfloat)
    (TGB : list (TriangleGraphic GLfloat))
    : Outcome (list (TriangleGraphic GLfloat)) :=
  updateTriangles (onVertices (setAlpha alpha)) (fogIndex x y) [0; 1] TGB.

(** [TGB.insert(TGB.end(), tgs.begin(), tgs.end())] *)
Definition drawMousePolygon (polygon : Polygon) (color : nat -> GLfloat)
    (TGB : list (TriangleGraphic GLfloat)) : list (TriangleGraphic GLfloat) :=
  TGB ++ polygonToTriangleGraphics polygon color one.

End Drawing.

End GraphicUtilities.

(** The buffer after [tgs] was stored at [index]: the slots from
    [index] on hold [tgs], what was there before and after them is
    kept. *)
Definition spliced {A : Type} (index : nat) (tgs TGB : list A) : list A :=
  take index TGB ++ tgs ++ drop (index + length tgs) TGB.

(** The parts of a tile in the buffer. *)
Inductive TilePart : Type :=
| BasePart
| WallPart (direction : Direction)
| CornerPart (cornerNumber : Z)
| FogPart.

(** The index of the first triangle of a part of the tile [(x, y)]. *)
Definition partIndex (directionValue : Direction -> Z) (x y : Z)
    (part : TilePart) : Z :=
  match part with
  | BasePart => GraphicUtilities.baseIndex x y
  | WallPart direction =>
      GraphicUtilities.wallIndex directionValue x y direction
  | CornerPart cornerNumber => GraphicUtilities.cornerIndex x y cornerNumber
  | FogPart => GraphicUtilities.fogIndex x y
  end.

(** The [alpha] a part is drawn with: the one given, or [1.0] for the
    parts whose function takes none. *)
Definition partAlpha {GLfloat : Type} (one : GLfloat) (part : TilePart)
    (alpha : GLfloat) : GLfloat :=
  match part with
  | BasePart | CornerPart _ => one
  | WallPart _ | FogPart => alpha
  end.

(** The function [drawTileGraphic...] of a part. *)
Definition drawTileGraphic {GLfloat Polygon Coordinate : Type}
    (triangulate : Polygon -> list (Coordinate * Coordinate * Coordinate))
    (getOpenGlCoordinates : Coordinate -> GLfloat * GLfloat)
    (directionValue : Direction -> Z) (one : GLfloat)
    (part : TilePart) (x y : Z) (polygon : Polygon)
    (color : nat -> GLfloat) (alpha : GLfloat)
    (TGB : list (GraphicUtilities.TriangleGraphic GLfloat))
    : list (GraphicUtilities.TriangleGraphic GLfloat) :=
  match part with
  | BasePart =>
      GraphicUtilities.drawTileGraphicBase triangulate getOpenGlCoordinates
        one x y polygon color TGB
  | WallPart direction =>
      GraphicUtilities.drawTileGraphicWall triangulate getOpenGlCoordinates
        directionValue x y direction polygon color alpha TGB
  | CornerPart cornerNumber =>
      GraphicUtilities.drawTileGraphicCorner triangulate getOpenGlCoordinates
        one x y cornerNumber polygon color TGB
  | FogPart =>
      GraphicUtilities.drawTileGraphicFog triangulate getOpenGlCoordinates
        x y polygon color alpha TGB
  end.

(** The state a function leaves behind. *)
Definition bufferOf {S : Type} (o : Outcome S) : S :=
  match o with
  | Done s => s
  | Threw s => s
  end.

(** The outcome of the loop of the update functions on a buffer of
    [size] triangles, by the number of slots that exist from [index]
    on. *)
Definition updateOutcome {A : Type} (f : A -> A) (index : nat)
    (TGB : list A) : Outcome (list A) :=
  match TGB !! index, TGB !! S index with
  | Some t0, Some t1 => Done (<[S index := f t1]> (<[index := f t0]> TGB))
  | Some t0, None => Threw (<[index := f t0]> TGB)
  | None, _ => Threw TGB
  end.

(** The coordinates of the three vertices of a triangle. *)
Definition positions {GLfloat : Type}
    (t : GraphicUtilities.TriangleGraphic GLfloat) : list GLfloat :=
  [GraphicUtilities.x (GraphicUtilities.p1 t);
   GraphicUtilities.y (GraphicUtilities.p1 t);
   GraphicUtilities.x (GraphicUtilities.p2 t);
   GraphicUtilities.y (GraphicUtilities.p2 t);
   GraphicUtilities.x (GraphicUtilities.p3 t);
   GraphicUtilities.y (GraphicUtilities.p3 t)].

(** An instance of what the buffer functions leave open: integers for
    [GLfloat], a polygon given by its triangles, coordinates that are
    used as they are, and the directions numbered in the order of
    [DIRECTIONS]. *)
Definition exampleTriangulate (polygon : list (Z * Z * (Z * Z) * (Z * Z)))
    : list (Z * Z * (Z * Z) * (Z * Z)) := polygon.

Definition exampleCoordinates (c : Z * Z) : Z * Z := c.

Definition exampleDirectionValue (d : Direction) : Z :=
  Z.of_nat (Direction_to_nat d).

Definition exampleSquare : list (Z * Z * (Z * Z) * (Z * Z)) :=
  [((0, 0), (1, 0), (1, 1)); ((0, 0), (1, 1), (0, 1))].

Definition exampleColor (k : nat) : Z := 100 + Z.of_nat k.

Definition otherColor (k : nat) : Z := 200 + Z.of_nat k.

Definition exampleTriangle (n : Z) : GraphicUtilities.TriangleGraphic Z :=
  GraphicUtilities.mkTriangle
    (GraphicUtilities.mkVertex n 0 1 2 3 4)
    (GraphicUtilities.mkVertex n 1 1 2 3 4)
    (GraphicUtilities.mkVertex n 2 1 2 3 4).

(** A buffer with the twenty triangles of the tile (0, 0). *)
Definition exampleTGB : list (GraphicUtilities.TriangleGraphic Z) :=
  exampleTriangle <$> seqZ 0 20.

(** The calls of the three update functions. *)
Inductive UpdateCall (GLfloat : Type) : Type :=
| BaseColor (color : nat -> GLfloat)
| WallColor (direction : Direction) (color : nat -> GLfloat) (alpha : GLfloat)
| FogAlpha (alpha : GLfloat).
Arguments BaseColor {GLfloat} color.
Arguments WallColor {GLfloat} direction color alpha.
Arguments FogAlpha {GLfloat} alpha.

(** The update function of a call. *)
Definition runUpdate {GLfloat : Type} (directionValue : Direction -> Z)
    (call : UpdateCall GLfloat) (x y : Z)
    (TGB : list (GraphicUtilities.TriangleGraphic GLfloat))
    : Outcome (list (GraphicUtilities.TriangleGraphic GLfloat)) :=
  match call with
  | BaseColor color =>
      GraphicUtilities.updateTileGraphicBaseColor x y color TGB
  | WallColor direction color alpha =>
      GraphicUtilities.updateTileGraphicWallColor directionValue x y
        direction color alpha TGB
  | FogAlpha alpha => GraphicUtilities.updateTileGraphicFog x y alpha TGB
  end.

(** The part of the tile a call updates. *)
Definition updatePart {GLfloat : Type} (call : UpdateCall GLfloat)
    : TilePart :=
  match call with
  | BaseColor _ => BasePart
  | WallColor direction _ _ => WallPart direction
  | FogAlpha _ => FogPart
  end.

(** What a call assigns to each vertex. *)
Definition updateChange {GLfloat : Type} (call : UpdateCall GLfloat)
    (v : GraphicUtilities.VertexGraphic GLfloat)
    : GraphicUtilities.VertexGraphic GLfloat :=
  match call with
  | BaseColor color => GraphicUtilities.setColor color v
  | WallColor _ color alpha =>
      GraphicUtilities.setAlpha alpha (GraphicUtilities.setColor color v)
  | FogAlpha alpha => GraphicUtilities.setAlpha alpha v
  end.

(** The colour and the alpha of a part after a call, when it was drawn
    with [color] and [alpha]. *)
Definition updatedColor {GLfloat : Type} (call : UpdateCall GLfloat)
    (color : nat -> GLfloat) : nat -> GLfloat :=
  match call with
  | BaseColor color' => color'
  | WallColor _ color' _ => color'
  | FogAlpha _ => color
  end.

Definition updatedAlpha {GLfloat : Type} (call : UpdateCall GLfloat)
    (alpha : GLfloat) : GLfloat :=
  match call with
  | BaseColor _ => alpha
  | WallColor _ _ alpha' => alpha'
  | FogAlpha alpha' => alpha'
  end.

(** The alpha values and the colours of the vertices of a triangle. *)
Definition alphas {GLfloat : Type}
    (t : GraphicUtilities.TriangleGraphic GLfloat) : list GLfloat :=
  [GraphicUtilities.a (GraphicUtilities.p1 t);
   GraphicUtilities.a (GraphicUtilities.p2 t);
   GraphicUtilities.a (GraphicUtilities.p3 t)].

Definition colors {GLfloat : Type}
    (t : GraphicUtilities.TriangleGraphic GLfloat) : list GLfloat :=
  concat
    ((fun v =>
        [GraphicUtilities.r v; GraphicUtilities.g v; GraphicUtilities.b v])
     <$> [GraphicUtilities.p1 t; GraphicUtilities.p2 t; GraphicUtilities.p3 t]).

(** Whether a function threw. *)
Definition threw {S : Type} (o : Outcome S) : bool :=
  match o with
  | Done _ => false
  | Threw _ => true
  end.

(** The offset of a part within the twenty triangles of its tile. *)
Definition partOffset (directionValue : Direction -> Z) (part : TilePart)
    : Z :=
  match part with
  | BasePart => 0
  | WallPart direction => 2 + 2 * directionValue direction
  | CornerPart cornerNumber => 10 + 2 * cornerNumber
  | FogPart => 18
  end.

(** The parts a tile has: a base, four walls, four corners and the
    fog. *)
Definition validPart (directionValue : Direction -> Z) (part : TilePart)
    : Prop :=
  match part with
  | WallPart direction => 0 <= directionValue direction <= 3
  | CornerPart cornerNumber => 0 <= cornerNumber <= 3
  | _ => True
  end.

(** * Proofs *)

(** ** Machine integers *)

Lemma wrap_int_small z : INT_MIN <= z <= INT_MAX -> wrap_int z = z.
Proof.
  unfold INT_MIN, INT_MAX, wrap_int. intros H.
  rewrite Z.mod_small; lia.
Qed.

Lemma int_add_small a b : INT_MIN <= a + b <= INT_MAX -> int_add a b = a + b.
Proof. apply wrap_int_small. Qed.

Lemma wrap_int_range z : INT_MIN <= wrap_int z <= INT_MAX.
Proof.
  unfold INT_MIN, INT_MAX, wrap_int.
  pose proof (Z.mod_pos_bound (z + 2 ^ 31) (2 ^ 32)). lia.
Qed.

Lemma to_size_t_small z : 0 <= z <= INT_MAX -> to_size_t z = z.
Proof.
  unfold INT_MAX, to_size_t. intros H. rewrite Z.mod_small; lia.
Qed.

Lemma in_int_spec z : in_int z = true <-> INT_MIN <= z <= INT_MAX.
Proof. unfold in_int. rewrite andb_true_iff, !Z.leb_le. tauto. Qed.

(** ** Text *)

Lemma string_app_cons (x : ascii) (a b : string) :
  (String x a ++ b = String x (a ++ b))%string.
Proof. reflexivity. Qed.

Lemma string_app_nil_l (b : string) : ("" ++ b = b)%string.
Proof. reflexivity. Qed.

Lemma string_app_assoc (a b c : string) :
  ((a ++ b) ++ c = a ++ (b ++ c))%string.
Proof.
  induction a as [|x a IH]; [done|].
  rewrite !string_app_cons. by f_equal.
Qed.

Lemma string_app_nil_r (a : string) : (a ++ "" = a)%string.
Proof.
  induction a as [|x a IH]; [done|]. rewrite string_app_cons. by f_equal.
Qed.

Lemma snoc_char_app cur c s :
  (snoc_char cur c ++ s = cur ++ String c s)%string.
Proof. unfold snoc_char. by rewrite string_app_assoc. Qed.

Lemma allChars_app p a b :
  allChars p (a ++ b) = allChars p a && allChars p b.
Proof.
  induction a as [|x a IH]; [done|].
  rewrite string_app_cons. simpl. by rewrite IH, andb_assoc.
Qed.

Lemma allChars_impl (p q : ascii -> bool) s :
  (forall c, p c = true -> q c = true) ->
  allChars p s = true -> allChars q s = true.
Proof.
  intros Hpq. induction s as [|c s IH]; simpl; [done|].
  rewrite !andb_true_iff. intros [? ?]. auto.
Qed.

Lemma flush_token_nonempty cur : cur <> EmptyString -> flush_token cur = [cur].
Proof. by destruct cur. Qed.

Lemma string_app_nonempty (a b : string) :
  a <> EmptyString -> (a ++ b)%string <> EmptyString.
Proof. by destruct a. Qed.

Lemma getlines_from_app cur l s :
  allChars notNewline l = true ->
  getlines_from cur (l ++ s) = getlines_from (cur ++ l) s.
Proof.
  revert cur. induction l as [|c l IH]; intros cur.
  - by rewrite string_app_nil_r.
  - rewrite string_app_cons. simpl.
    rewrite andb_true_iff. unfold notNewline at 1. intros [Hc Hl].
    apply negb_true_iff in Hc. rewrite Hc, IH by done.
    by rewrite snoc_char_app.
Qed.

Lemma getlines_line l s :
  allChars notNewline l = true ->
  getlines (l ++ endl ++ s) = l :: getlines s.
Proof.
  intros Hl. unfold getlines. rewrite getlines_from_app by done.
  reflexivity.
Qed.

Lemma getlines_from_nil cur content :
  getlines_from cur content = [] -> cur = EmptyString /\ content = EmptyString.
Proof.
  revert cur. induction content as [|c s IH]; intros cur; simpl.
  - by destruct cur.
  - destruct (Ascii.eqb c newline); [done|].
    intros H. apply IH in H as [H _]. by destruct cur.
Qed.

Lemma getlines_nil content : getlines content = [] -> content = EmptyString.
Proof. intros H. by apply getlines_from_nil in H as [_ H]. Qed.

Lemma getlines_fileOfLines lines :
  Forall (fun l => allChars notNewline l = true) lines ->
  getlines (fileOfLines lines) = lines.
Proof.
  induction 1 as [|l lines Hl _ IH]; simpl; [done|].
  by rewrite getlines_line, IH.
Qed.

Lemma tokenize_from_app cur t s :
  allChars notSpace t = true ->
  tokenize_from cur (t ++ s) = tokenize_from (cur ++ t) s.
Proof.
  revert cur. induction t as [|c t IH]; intros cur.
  - by rewrite string_app_nil_r.
  - rewrite string_app_cons. simpl.
    rewrite andb_true_iff. unfold notSpace at 1. intros [Hc Ht].
    apply negb_true_iff in Hc. rewrite Hc, IH by done.
    by rewrite snoc_char_app.
Qed.

(** A token followed by a blank is delivered, and the scan goes on. *)
Lemma tokenize_token_blank t s :
  t <> EmptyString -> allChars notSpace t = true ->
  tokenize (t ++ String " " s) = t :: tokenize s.
Proof.
  intros Hne Ht. unfold tokenize. rewrite tokenize_from_app by done.
  simpl. by rewrite flush_token_nonempty.
Qed.

(** A token at the end of the line is delivered. *)
Lemma tokenize_token_end t :
  t <> EmptyString -> allChars notSpace t = true -> tokenize t = [t].
Proof.
  intros Hne Ht. unfold tokenize.
  rewrite <- (string_app_nil_r t) at 1.
  rewrite tokenize_from_app by done. simpl. by rewrite flush_token_nonempty.
Qed.

(** ** Writing and reading back an [int] *)

Lemma string_of_uint_chars d :
  allChars isNumberChar (NilEmpty.string_of_uint d) = true.
Proof. induction d; simpl; auto. Qed.

Lemma show_int_chars z : allChars isNumberChar (show_int z) = true.
Proof.
  unfold show_int, NilZero.string_of_int, NilZero.string_of_uint.
  destruct (Z.to_int z) as [d|d]; destruct d; simpl;
    auto using string_of_uint_chars.
Qed.

Lemma isNumberChar_notSpace c : isNumberChar c = true -> notSpace c = true.
Proof. destruct c as [[] [] [] [] [] [] [] []]; by vm_compute. Qed.

Lemma isNumberChar_notNewline c : isNumberChar c = true -> notNewline c = true.
Proof. destruct c as [[] [] [] [] [] [] [] []]; by vm_compute. Qed.

Lemma show_int_notSpace z : allChars notSpace (show_int z) = true.
Proof.
  eapply allChars_impl; [apply isNumberChar_notSpace|apply show_int_chars].
Qed.

Lemma show_int_notNewline z : allChars notNewline (show_int z) = true.
Proof.
  eapply allChars_impl; [apply isNumberChar_notNewline|apply show_int_chars].
Qed.

Lemma show_int_nonempty z : show_int z <> EmptyString.
Proof.
  unfold show_int, NilZero.string_of_int, NilZero.string_of_uint.
  destruct (Z.to_int z) as [d|d]; destruct d; simpl; discriminate.
Qed.

Lemma parse_decimal_no_plus s :
  allChars isNumberChar s = true ->
  parse_decimal s = Z.of_int <$> NilZero.int_of_string s.
Proof.
  destruct s as [|c s]; [done|].
  simpl. rewrite andb_true_iff. intros [Hc _].
  destruct c as [[] [] [] [] [] [] [] []]; try reflexivity.
  by vm_compute in Hc.
Qed.

Lemma to_int_proper z : Z.to_int z <> Decimal.Pos Decimal.Nil /\
  Z.to_int z <> Decimal.Neg Decimal.Nil.
Proof.
  destruct z as [|p|p]; simpl; split; try discriminate;
    intros [= H]; by apply DecimalPos.Unsigned.to_uint_nonnil in H.
Qed.

(** What [saveMaze] writes for an [int] reads back as that [int]. *)
Lemma strToInt_show_int z : in_int z = true -> strToInt (show_int z) = Some z.
Proof.
  intros Hz. unfold strToInt.
  rewrite parse_decimal_no_plus by apply show_int_chars.
  unfold show_int. destruct (to_int_proper z) as [H1 H2].
  rewrite NilZero.isi by done. simpl.
  by rewrite DecimalZ.of_to, Hz.
Qed.

(** ** The validator on one line *)

Lemma isMazeFile_readable fs path content :
  node fs path = Readable content -> content <> EmptyString ->
  isMazeFile fs path = verdict (checkLines path 0 0 0 (getlines content)).
Proof.
  intros Hnode Hne. unfold isMazeFile, isFile. rewrite Hnode. simpl.
  by destruct content.
Qed.

Lemma readValues_ok path lineNum tokens values :
  mapM strToInt tokens = Some values ->
  forall i, readValues path lineNum i tokens = inr values.
Proof.
  intros H. apply mapM_Some in H.
  induction H as [|token v tokens values Hv _ IH]; intros i; simpl; [done|].
  by rewrite Hv, IH.
Qed.

Lemma lineValues_six line values :
  lineValues line = Some values -> length values = 6%nat ->
  (6 =? length (tokenize line))%nat = true.
Proof.
  intros H Hlen. apply length_mapM in H. rewrite H, Hlen. done.
Qed.

(** On a line of six integers the loop body is decided by the two
    coordinate cases and then by the wall values. *)
Lemma checkLine_values path lineNum ex ey line x y n e s w :
  lineValues line = Some [x; y; n; e; s; w] ->
  checkLine path lineNum ex ey line =
    match coordStep ex ey x y with
    | Some state =>
        match checkWalls path lineNum [x; y; n; e; s; w] with
        | Some warning => inl warning
        | None => inr state
        end
    | None => inl (UnexpectedXY path x y lineNum)
    end.
Proof.
  intros H. unfold checkLine.
  rewrite (lineValues_six _ _ H) by done. simpl.
  rewrite (readValues_ok _ _ _ _ H). unfold coordStep, at_. simpl.
  destruct ((x =? ex) && (y =? ey)); [done|].
  by destruct ((x =? int_add ex 1) && (y =? 0) && negb (ey =? 0)).
Qed.

Lemma checkWalls_bits path lineNum x y n e s w :
  forallb isBit [n; e; s; w] = true ->
  checkWalls path lineNum [x; y; n; e; s; w] = None.
Proof.
  simpl. rewrite !andb_true_iff. unfold isBit. intros (Hn & He & Hs & Hw & _).
  unfold checkWalls, at_. simpl. by rewrite Hn, He, Hs, Hw.
Qed.

Lemma wellFormedLine_inv line :
  wellFormedLine line = true ->
  exists x y n e s w,
    lineValues line = Some [x; y; n; e; s; w] /\
    forallb isBit [n; e; s; w] = true /\ lineXY line = Some (x, y).
Proof.
  unfold wellFormedLine, lineXY.
  destruct (lineValues line) as [[|x [|y [|n [|e [|s [|w [|]]]]]]]|];
    try discriminate.
  intros H. by exists x, y, n, e, s, w.
Qed.

Lemma checkLine_wellFormed path lineNum ex ey line x y :
  wellFormedLine line = true -> lineXY line = Some (x, y) ->
  checkLine path lineNum ex ey line =
    match coordStep ex ey x y with
    | Some state => inr state
    | None => inl (UnexpectedXY path x y lineNum)
    end.
Proof.
  intros Hwf Hxy.
  destruct (wellFormedLine_inv _ Hwf) as (x' & y' & n & e & s & w & Hv & Hb & Hxy').
  rewrite Hxy in Hxy'. injection Hxy' as <- <-.
  rewrite (checkLine_values _ _ _ _ _ _ _ _ _ _ _ Hv).
  by rewrite checkWalls_bits.
Qed.

Lemma coordScan_cons ex ey x y cs :
  coordScan ex ey ((x, y) :: cs) =
    match coordStep ex ey x y with
    | Some (ex', ey') => coordScan ex' ey' cs
    | None => false
    end.
Proof. done. Qed.

Lemma checkLines_cons path lineNum ex ey line lines :
  checkLines path lineNum ex ey (line :: lines) =
    match checkLine path (int_add lineNum 1) ex ey line with
    | inl w => inl w
    | inr (ex', ey') => checkLines path (int_add lineNum 1) ex' ey' lines
    end.
Proof. done. Qed.

(** On well-formed lines the loop accepts exactly when the state
    machine accepts their coordinates. *)
Lemma checkLines_coordScan path lines cs :
  Forall (fun l => wellFormedLine l = true) lines ->
  mapM lineXY lines = Some cs ->
  forall lineNum ex ey,
    (verdict (checkLines path lineNum ex ey lines)).1 = coordScan ex ey cs.
Proof.
  intros Hwf Hcs. apply mapM_Some in Hcs.
  induction Hcs as [|line [x y] lines cs Hxy _ IH]; intros lineNum ex ey.
  - done.
  - apply Forall_cons in Hwf as [Hl Hwf].
    rewrite checkLines_cons, coordScan_cons.
    rewrite (checkLine_wellFormed _ _ _ _ _ _ _ Hl Hxy).
    destruct (coordStep ex ey x y) as [[ex' ey']|]; [by apply IH|done].
Qed.

Lemma wellFormed_coords lines :
  Forall (fun l => wellFormedLine l = true) lines ->
  exists cs, mapM lineXY lines = Some cs.
Proof.
  intros Hwf. apply (mapM_is_Some_2 lineXY).
  eapply Forall_impl; [exact Hwf|]. intros l Hl. simpl.
  destruct (wellFormedLine_inv _ Hl) as (x & y & _ & _ & _ & _ & _ & _ & ->).
  done.
Qed.

(** ** The state machine and the coordinate progression *)

Lemma columnFrom_0 x y : columnFrom x y 0 = [].
Proof. done. Qed.

Lemma columnFrom_S x y k :
  columnFrom x y (S k) = (x, y) :: columnFrom x (y + 1) k.
Proof.
  unfold columnFrom. simpl. rewrite Z.add_0_r. f_equal.
  rewrite <- fmap_S_seq, <- list_fmap_compose.
  apply list_fmap_ext. intros _ j _. simpl. f_equal. lia.
Qed.

Lemma progressionFrom_cons x k ks :
  progressionFrom x (k :: ks) = columnFrom x 0 k ++ progressionFrom (x + 1) ks.
Proof. done. Qed.

Lemma length_columnFrom x y k : length (columnFrom x y k) = k.
Proof. unfold columnFrom. by rewrite length_fmap, length_seq. Qed.

Lemma coordStep_continue x y :
  INT_MIN <= y + 1 <= INT_MAX -> coordStep x y x y = Some (x, y + 1).
Proof.
  intros H. unfold coordStep. rewrite !Z.eqb_refl. simpl.
  by rewrite int_add_small.
Qed.

Lemma coordStep_next x y :
  INT_MIN <= x + 1 <= INT_MAX -> y <> 0 ->
  coordStep x y (x + 1) 0 = Some (x + 1, 1).
Proof.
  intros H Hy. unfold coordStep. rewrite (int_add_small x 1) by done.
  replace (x + 1 =? x) with false by (symmetry; apply Z.eqb_neq; lia).
  rewrite Z.eqb_refl. simpl.
  by replace (y =? 0) with false by (symmetry; by apply Z.eqb_neq).
Qed.

(** Without overflow, a step is one of the two cases of the source. *)
Lemma coordStep_inv ex ey x y state :
  INT_MIN <= ex + 1 <= INT_MAX -> INT_MIN <= ey + 1 <= INT_MAX ->
  coordStep ex ey x y = Some state ->
  (x = ex /\ y = ey /\ state = (ex, ey + 1)) \/
  (x = ex + 1 /\ y = 0 /\ ey <> 0 /\ state = (ex + 1, 1)).
Proof.
  intros Hx Hy. unfold coordStep. rewrite !int_add_small by done.
  destruct ((x =? ex) && (y =? ey)) eqn:H1.
  - apply andb_true_iff in H1 as [?%Z.eqb_eq ?%Z.eqb_eq].
    intros [= <-]. by left.
  - destruct ((x =? ex + 1) && (y =? 0) && negb (ey =? 0)) eqn:H2; [|done].
    apply andb_true_iff in H2 as [H2 H3].
    apply andb_true_iff in H2 as [?%Z.eqb_eq ?%Z.eqb_eq].
    apply negb_true_iff, Z.eqb_neq in H3.
    intros [= <-]. by right.
Qed.

(** The rest of a column is consumed by the first case. *)
Lemma coordScan_column k x y cs :
  0 <= y -> y + Z.of_nat k <= INT_MAX ->
  coordScan x y (columnFrom x y k ++ cs) = coordScan x (y + Z.of_nat k) cs.
Proof.
  revert y. induction k as [|k IH]; intros y Hy Hk.
  - rewrite columnFrom_0, Z.add_0_r. done.
  - rewrite columnFrom_S. simpl.
    unfold INT_MAX in *.
    rewrite coordStep_continue by (unfold INT_MIN, INT_MAX; lia).
    rewrite IH by lia. f_equal. lia.
Qed.

(** Whole columns are consumed by the second case followed by the
    first. *)
Lemma coordScan_progressionFrom ks x y :
  Forall (fun k => (0 < k)%nat) ks ->
  0 <= x -> 1 <= y ->
  x + Z.of_nat (length (progressionFrom (x + 1) ks)) <= INT_MAX ->
  y + Z.of_nat (length (progressionFrom (x + 1) ks)) <= INT_MAX ->
  coordScan x y (progressionFrom (x + 1) ks) = true.
Proof.
  intros Hks. revert x y.
  induction Hks as [|k ks Hk _ IH]; intros x y Hx Hy; [done|].
  destruct k as [|j]; [lia|]. rewrite progressionFrom_cons.
  rewrite columnFrom_S. simpl. rewrite !length_app, length_columnFrom.
  unfold INT_MAX. intros Bx By.
  rewrite coordStep_next by (unfold INT_MIN, INT_MAX; lia).
  rewrite coordScan_column by (unfold INT_MAX; lia).
  apply IH; unfold INT_MAX; lia.
Qed.

(** Conversely, what the state machine accepts from a state inside a
    column is the rest of that column followed by whole columns. *)
Lemma coordScan_inv cs x y :
  0 <= x -> 1 <= y ->
  x + Z.of_nat (length cs) <= INT_MAX ->
  y + Z.of_nat (length cs) <= INT_MAX ->
  coordScan x y cs = true ->
  exists j ks,
    Forall (fun k => (0 < k)%nat) ks /\
    cs = columnFrom x y j ++ progressionFrom (x + 1) ks.
Proof.
  revert x y. induction cs as [|[a b] cs IH]; intros x y Hx Hy Bx By Hscan.
  - by exists 0%nat, [].
  - simpl in Hscan, Bx, By. unfold INT_MAX in Bx, By.
    destruct (coordStep x y a b) as [[ex ey]|] eqn:Hstep; [|done].
    apply coordStep_inv in Hstep; [|unfold INT_MIN, INT_MAX; lia..].
    destruct Hstep as [(-> & -> & [= -> ->])|(-> & -> & _ & [= -> ->])].
    + apply IH in Hscan as (j & ks & Hks & ->); [|unfold INT_MAX; lia..].
      exists (S j), ks. split; [done|]. by rewrite columnFrom_S.
    + apply IH in Hscan as (j & ks & Hks & ->); [|unfold INT_MAX; lia..].
      exists 0%nat, (S j :: ks). split; [constructor; [lia|done]|].
      by rewrite progressionFrom_cons, columnFrom_S.
Qed.

(** From the initial state, the non-empty accepted sequences are the
    progressions over positive column lengths. *)
Lemma coordScan_progression cs :
  Z.of_nat (length cs) <= INT_MAX ->
  (cs <> [] /\ coordScan 0 0 cs = true) <->
  (exists ks, ks <> [] /\ Forall (fun k => (0 < k)%nat) ks /\
              cs = progression ks).
Proof.
  intros B. split.
  - intros [Hne Hscan]. destruct cs as [|[a b] cs]; [done|].
    simpl in Hscan, B. unfold INT_MAX in B.
    destruct (coordStep 0 0 a b) as [[ex ey]|] eqn:Hstep; [|done].
    apply coordStep_inv in Hstep; [|unfold INT_MIN, INT_MAX; lia..].
    destruct Hstep as [(-> & -> & [= -> ->])|(_ & _ & ? & _)]; [|done].
    apply coordScan_inv in Hscan as (j & ks & Hks & ->);
      [|unfold INT_MAX; lia..].
    exists (S j :: ks). split; [done|]. split; [constructor; [lia|done]|].
    unfold progression. by rewrite progressionFrom_cons, columnFrom_S.
  - intros (ks & Hne & Hks & ->). destruct ks as [|k ks]; [done|].
    apply Forall_cons in Hks as [Hk Hks]. destruct k as [|j]; [lia|].
    unfold progression in *. rewrite progressionFrom_cons, columnFrom_S in *.
    split; [done|]. rewrite <- app_comm_cons in B |- *.
    cbn [length] in B. rewrite length_app, length_columnFrom in B.
    unfold INT_MAX in B. rewrite coordScan_cons.
    rewrite coordStep_continue by (unfold INT_MIN, INT_MAX; lia).
    rewrite coordScan_column by (unfold INT_MAX; lia).
    apply coordScan_progressionFrom; unfold INT_MAX; try lia; done.
Qed.

(** ** The validator accepts well-formed lines only *)

Lemma readValues_inr path lineNum tokens :
  forall i values,
    readValues path lineNum i tokens = inr values ->
    mapM strToInt tokens = Some values.
Proof.
  induction tokens as [|token tokens IH]; intros i values; simpl.
  - by intros [= <-].
  - destruct (strToInt token) as [v|]; [|done].
    destruct (readValues path lineNum (int_add i 1) tokens) as [|vs] eqn:E;
      [done|].
    intros [= <-]. apply IH in E. cbn. by rewrite E.
Qed.

Lemma checkWalls_None path lineNum x y n e s w :
  checkWalls path lineNum [x; y; n; e; s; w] = None ->
  forallb isBit [n; e; s; w] = true.
Proof.
  unfold checkWalls, at_, isBit. simpl.
  destruct ((n =? 0) || (n =? 1)); [|done].
  destruct ((e =? 0) || (e =? 1)); [|done].
  destruct ((s =? 0) || (s =? 1)); [|done].
  by destruct ((w =? 0) || (w =? 1)).
Qed.

(** A line the loop body accepts is well-formed, and its coordinates
    took one of the two cases. *)
Lemma checkLine_inr path lineNum ex ey line state :
  checkLine path lineNum ex ey line = inr state ->
  wellFormedLine line = true /\
  exists x y, lineXY line = Some (x, y) /\ coordStep ex ey x y = Some state.
Proof.
  unfold checkLine.
  destruct (6 =? length (tokenize line))%nat eqn:Hlen; [|done]. simpl.
  destruct (readValues path lineNum 0 (tokenize line)) as [|values] eqn:Hv;
    [done|].
  apply readValues_inr in Hv. apply Nat.eqb_eq in Hlen.
  pose proof (length_mapM _ _ _ Hv) as Hl. rewrite <- Hlen in Hl.
  destruct values as [|x [|y [|n [|e [|s [|w [|]]]]]]]; try discriminate.
  unfold at_. simpl nth. intros H.
  assert (exists st, coordStep ex ey x y = Some st /\
            checkWalls path lineNum [x; y; n; e; s; w] = None /\ st = state)
    as (st & Hstep & Hwalls & ->).
  { unfold coordStep.
    destruct ((x =? ex) && (y =? ey)).
    - destruct (checkWalls path lineNum [x; y; n; e; s; w]); [done|].
      injection H as <-. eauto.
    - destruct ((x =? int_add ex 1) && (y =? 0) && negb (ey =? 0)); [|done].
      destruct (checkWalls path lineNum [x; y; n; e; s; w]); [done|].
      injection H as <-. eauto. }
  apply checkWalls_None in Hwalls.
  unfold wellFormedLine, lineXY, lineValues. rewrite Hv. eauto.
Qed.

Lemma checkLines_inr path lines :
  forall lineNum ex ey final,
    checkLines path lineNum ex ey lines = inr final ->
    Forall (fun l => wellFormedLine l = true) lines.
Proof.
  induction lines as [|line lines IH]; intros lineNum ex ey final; [done|].
  rewrite checkLines_cons.
  destruct (checkLine path (int_add lineNum 1) ex ey line) as [|[ex' ey']] eqn:E;
    [done|].
  intros H. apply checkLine_inr in E as [Hwf _]. eauto.
Qed.

Lemma verdict_true {S : Type} (o : Warning + S) :
  (verdict o).1 = true -> exists final, o = inr final.
Proof. destruct o; [done|eauto]. Qed.

(** What [isMazeFile] has established when it returns true. *)
Lemma isMazeFile_true fs path :
  (isMazeFile fs path).1 = true ->
  exists content final,
    node fs path = Readable content /\ content <> EmptyString /\
    checkLines path 0 0 0 (getlines content) = inr final.
Proof.
  unfold isMazeFile, isFile.
  destruct (node fs path) as [| |content]; try done. simpl.
  destruct content as [|c content]; [done|].
  destruct (checkLines path 0 0 0 (getlines (String c content)))
    as [|final] eqn:E; [done|].
  intros _. by exists (String c content), final.
Qed.

(** ** The loader on one line *)

Lemma lineValues_tokens line x y n e s w :
  lineValues line = Some [x; y; n; e; s; w] ->
  exists t0 t1 t2 t3 t4 t5,
    tokenize line = [t0; t1; t2; t3; t4; t5] /\
    strToInt t0 = Some x /\ strToInt t1 = Some y /\ strToInt t2 = Some n /\
    strToInt t3 = Some e /\ strToInt t4 = Some s /\ strToInt t5 = Some w.
Proof.
  unfold lineValues. intros H. apply mapM_Some in H.
  repeat match goal with
         | H : Forall2 _ _ (_ :: _) |- _ =>
             apply Forall2_cons_inv_r in H as (? & ? & ? & H & ->)
         | H : Forall2 _ _ [] |- _ => apply Forall2_nil_inv_r in H as ->
         end.
  do 6 eexists. eauto 10.
Qed.

Lemma readTile_values line x y n e s w :
  lineValues line = Some [x; y; n; e; s; w] ->
  readTile (tokenize line) = Some (tileOf n e s w).
Proof.
  intros H.
  destruct (lineValues_tokens _ _ _ _ _ _ _ H)
    as (t0 & t1 & t2 & t3 & t4 & t5 & -> & _ & _ & Hn & He & Hs & Hw).
  unfold readTile. simpl. rewrite Hn. simpl. rewrite He. simpl.
  rewrite Hs. simpl. rewrite Hw. simpl.
  unfold tileOf, map_insert_pair. simpl.
  by rewrite lookup_empty, !lookup_insert_ne, !lookup_empty by done.
Qed.

Lemma lineCell_inv line x y tile :
  lineCell line = Some (x, y, tile) ->
  exists n e s w,
    lineValues line = Some [x; y; n; e; s; w] /\ tile = tileOf n e s w.
Proof.
  unfold lineCell.
  destruct (lineValues line) as [[|x' [|y' [|n [|e [|s [|w [|]]]]]]]|];
    try discriminate.
  intros [= -> -> <-]. by exists n, e, s, w.
Qed.

Lemma lineCell_lineXY line x y tile :
  lineCell line = Some (x, y, tile) -> lineXY line = Some (x, y).
Proof.
  intros H. apply lineCell_inv in H as (n & e & s & w & H & _).
  unfold lineXY. by rewrite H.
Qed.

Lemma wellFormedLine_cell line :
  wellFormedLine line = true -> exists cell, lineCell line = Some cell.
Proof.
  intros H. apply wellFormedLine_inv in H as (x & y & n & e & s & w & H & _).
  unfold lineCell. rewrite H. eauto.
Qed.

Lemma tileOf_full n e s w : fullTile (tileOf n e s w).
Proof.
  intros d. unfold tileOf. simpl.
  destruct d;
    repeat first [rewrite lookup_insert_eq | rewrite lookup_insert_ne by done];
    eauto.
Qed.

(** One turn of the loop of [loadMaze] on a line of six integers. *)
Lemma loadLines_cons maze column line lines x y tile :
  lineCell line = Some (x, y, tile) ->
  loadLines maze column (line :: lines) =
    if Z.of_nat (length maze) <? to_size_t x
    then loadLines (maze ++ [column]) [tile] lines
    else loadLines maze (column ++ [tile]) lines.
Proof.
  intros H. apply lineCell_inv in H as (n & e & s & w & H & ->).
  simpl. rewrite (readTile_values _ _ _ _ _ _ _ H). simpl.
  destruct (lineValues_tokens _ _ _ _ _ _ _ H)
    as (t0 & t1 & t2 & t3 & t4 & t5 & -> & Hx & _).
  simpl. rewrite Hx. done.
Qed.

(** ** The loader on whole columns *)

Lemma columnFrom_fst x y k : Forall (fun c => c.1 = x) (columnFrom x y k).
Proof. unfold columnFrom. apply Forall_fmap, Forall_forall. done. Qed.

(** Lines of a column that is already open are appended to it. *)
Lemma loadLines_column x maze :
  0 <= x <= INT_MAX -> x <= Z.of_nat (length maze) ->
  forall lsA cellsA,
    Forall2 (fun l c => lineCell l = Some c) lsA cellsA ->
    Forall (fun c => c.1.1 = x) cellsA ->
    forall column lsB,
      loadLines maze column (lsA ++ lsB) =
      loadLines maze (column ++ cellsA.*2) lsB.
Proof.
  intros Hx Hmaze lsA cellsA H.
  induction H as [|l [[x' y] tile] lsA cellsA Hl _ IH];
    intros Hall column lsB.
  - simpl. by rewrite app_nil_r.
  - apply Forall_cons in Hall as [Hx' Hall]. simpl in Hx'. subst x'.
    rewrite <- app_comm_cons, (loadLines_cons _ _ _ _ _ _ _ Hl).
    rewrite to_size_t_small by done.
    replace (Z.of_nat (length maze) <? x) with false
      by (symmetry; apply Z.ltb_ge; lia).
    rewrite IH by done. by rewrite fmap_cons, <- app_assoc.
Qed.

(** Every further column is pushed when its first line is read. *)
Lemma loadLines_columns ks :
  forall x lines cells maze column,
    Forall2 (fun l c => lineCell l = Some c) lines cells ->
    cells.*1 = progressionFrom (x + 1) ks ->
    Forall (fun k => (0 < k)%nat) ks ->
    Z.of_nat (length maze) = x ->
    x + Z.of_nat (length ks) <= INT_MAX ->
    exists cols,
      loadLines maze column lines = Some (maze ++ column :: cols) /\
      concat cols = cells.*2 /\ length <$> cols = ks.
Proof.
  induction ks as [|k ks IH];
    intros x lines cells maze column Hlines Hcells Hks Hmaze Hbound.
  - apply fmap_nil_inv in Hcells as ->.
    apply Forall2_nil_inv_r in Hlines as ->. by exists [].
  - apply Forall_cons in Hks as [Hk Hks]. destruct k as [|j]; [lia|].
    rewrite progressionFrom_cons, columnFrom_S in Hcells.
    rewrite <- app_comm_cons in Hcells.
    apply fmap_cons_inv in Hcells as ([[x0 y0] t0] & cells' & [= <- <-] & Hcells & ->).
    symmetry in Hcells.
    apply fmap_app_inv in Hcells as (cellsA & cellsB & HA & HB & ->).
    apply Forall2_cons_inv_r in Hlines as (l0 & lines' & Hl0 & Hlines & ->).
    apply Forall2_app_inv_r in Hlines as (lsA & lsB & HlsA & HlsB & ->).
    cbn [length] in Hbound. unfold INT_MAX in Hbound.
    rewrite (loadLines_cons _ _ _ _ _ _ _ Hl0).
    rewrite to_size_t_small by (unfold INT_MAX; lia).
    replace (Z.of_nat (length maze) <? x + 1) with true
      by (symmetry; apply Z.ltb_lt; lia).
    rewrite (loadLines_column (x + 1)) with (cellsA := cellsA);
      [|unfold INT_MAX; lia|rewrite length_app; cbn [length]; lia|done|].
    2:{ pose proof (columnFrom_fst (x + 1) (0 + 1) j) as Hfst.
        rewrite HA in Hfst. by apply Forall_fmap in Hfst. }
    destruct (IH (x + 1) lsB cellsB (maze ++ [column]) ([t0] ++ cellsA.*2))
      as (cols & Hload & Hconcat & Hlen);
      [done|by symmetry|done|rewrite length_app; cbn [length]; lia|
       unfold INT_MAX; lia|].
    exists (([t0] ++ cellsA.*2) :: cols). split; [|split].
    + rewrite Hload. by rewrite <- app_assoc.
    + simpl. by rewrite Hconcat, fmap_app.
    + rewrite fmap_cons, Hlen. cbn [length app]. rewrite length_fmap.
      f_equal. f_equal. apply (f_equal length) in HA.
      by rewrite length_fmap, length_columnFrom in HA.
Qed.

(** From the start of the file: the lines of column 0 go to the
    initial column, which is pushed by the first line of column 1 or
    after the loop. *)
Lemma loadLines_progression ks lines cells :
  Forall2 (fun l c => lineCell l = Some c) lines cells ->
  cells.*1 = progression ks ->
  ks <> [] -> Forall (fun k => (0 < k)%nat) ks ->
  Z.of_nat (length ks) <= INT_MAX ->
  exists maze,
    loadLines [] [] lines = Some maze /\
    concat maze = cells.*2 /\ length <$> maze = ks.
Proof.
  intros Hlines Hcells Hne Hks Hbound.
  destruct ks as [|k ks]; [done|].
  apply Forall_cons in Hks as [Hk Hks].
  unfold progression in Hcells. rewrite progressionFrom_cons in Hcells.
  apply fmap_app_inv in Hcells as (cellsA & cellsB & HA & HB & ->).
  apply Forall2_app_inv_r in Hlines as (lsA & lsB & HlsA & HlsB & ->).
  cbn [length] in Hbound. unfold INT_MAX in Hbound.
  rewrite (loadLines_column 0) with (cellsA := cellsA);
    [|unfold INT_MAX; lia|simpl; lia|done|].
  2:{ pose proof (columnFrom_fst 0 0 k) as Hfst.
      rewrite HA in Hfst. by apply Forall_fmap in Hfst. }
  destruct (loadLines_columns ks 0 lsB cellsB nil (nil ++ cellsA.*2))
    as (cols & Hload & Hconcat & Hlen);
    [done|by symmetry|done|done|unfold INT_MAX; lia|].
  exists ((nil ++ cellsA.*2) :: cols). split; [done|]. split.
  - simpl. by rewrite Hconcat, fmap_app.
  - rewrite fmap_cons, Hlen. cbn [app]. rewrite length_fmap.
    f_equal. apply (f_equal length) in HA.
    by rewrite length_fmap, length_columnFrom in HA.
Qed.

(** ** Counting the lines of a column *)

Lemma progressionFrom_fst ks :
  forall x, Forall (fun c => x <= c.1) (progressionFrom x ks).
Proof.
  induction ks as [|k ks IH]; intros x; [done|].
  rewrite progressionFrom_cons. apply Forall_app. split.
  - eapply Forall_impl; [apply columnFrom_fst|]. simpl. intros c ->. lia.
  - eapply Forall_impl; [apply (IH (x + 1))|]. simpl. intros c ?. lia.
Qed.

Lemma length_progressionFrom ks :
  forall x, length (progressionFrom x ks) = sum_list ks.
Proof.
  induction ks as [|k ks IH]; intros x; [done|].
  rewrite progressionFrom_cons, length_app, length_columnFrom, IH. done.
Qed.

Lemma length_le_sum_list ks :
  Forall (fun k => (0 < k)%nat) ks -> (length ks <= sum_list ks)%nat.
Proof. induction 1; simpl; lia. Qed.

Lemma filter_length_all {A} (P : A -> Prop) `{!forall a, Decision (P a)} l :
  Forall P l -> length (filter P l) = length l.
Proof.
  induction 1 as [|a l Ha _ IH]; [done|].
  rewrite filter_cons_True by done. simpl. by rewrite IH.
Qed.

Lemma filter_length_none {A} (P : A -> Prop) `{!forall a, Decision (P a)} l :
  Forall (fun a => ~ P a) l -> length (filter P l) = 0%nat.
Proof.
  induction 1 as [|a l Ha _ IH]; [done|].
  by rewrite filter_cons_False.
Qed.

(** Column [x + i] of a progression holds as many coordinates as its
    length says. *)
Lemma count_progressionFrom ks :
  forall x (i : nat),
    length (filter (fun c => c.1 = x + Z.of_nat i) (progressionFrom x ks))
    = default 0%nat (ks !! i).
Proof.
  induction ks as [|k ks IH]; intros x i; [done|].
  rewrite progressionFrom_cons, filter_app, length_app.
  destruct i as [|i].
  - rewrite filter_length_all, length_columnFrom.
    + rewrite filter_length_none; [simpl; lia|].
      eapply Forall_impl; [apply (progressionFrom_fst ks (x + 1))|].
      simpl. intros c ?. lia.
    + eapply Forall_impl; [apply columnFrom_fst|]. simpl. intros c ->. lia.
  - rewrite filter_length_none.
    + replace (x + Z.of_nat (S i)) with (x + 1 + Z.of_nat i) by lia.
      by rewrite IH.
    + eapply Forall_impl; [apply columnFrom_fst|]. simpl. intros c ->. lia.
Qed.

Lemma lineCell_lineX line cell :
  lineCell line = Some cell -> lineX line = Some cell.1.1.
Proof.
  destruct cell as [[x y] tile]. intros H.
  unfold lineX. by rewrite (lineCell_lineXY _ _ _ _ H).
Qed.

Lemma count_lines lines cells v :
  Forall2 (fun l c => lineCell l = Some c) lines cells ->
  length (filter (fun l => lineX l = Some v) lines)
  = length (filter (fun c => c.1 = v) cells.*1).
Proof.
  induction 1 as [|l c lines cells Hl _ IH]; [done|].
  apply lineCell_lineX in Hl. rewrite fmap_cons.
  destruct (decide (c.1.1 = v)) as [Hv|Hv].
  - rewrite !filter_cons_True; [simpl; by rewrite IH|done|].
    by rewrite Hl, Hv.
  - rewrite !filter_cons_False; [done|done|].
    rewrite Hl. by intros [= ?].
Qed.

Lemma last_columnFrom x j :
  forall y, last (columnFrom x y (S j)) = Some (x, y + Z.of_nat j).
Proof.
  induction j as [|j IH]; intros y.
  - rewrite columnFrom_S, columnFrom_0. simpl. by rewrite Z.add_0_r.
  - rewrite columnFrom_S, last_cons, IH. f_equal. f_equal. lia.
Qed.

Lemma last_progressionFrom ks :
  forall x, ks <> [] -> Forall (fun k => (0 < k)%nat) ks ->
  exists y, last (progressionFrom x ks)
            = Some (x + Z.of_nat (length ks) - 1, y).
Proof.
  induction ks as [|k ks IH]; intros x Hne Hks; [done|].
  apply Forall_cons in Hks as [Hk Hks]. rewrite progressionFrom_cons.
  destruct ks as [|k' ks].
  - cbn [progressionFrom]. rewrite app_nil_r. destruct k as [|j]; [lia|].
    rewrite last_columnFrom. eexists. f_equal. f_equal. cbn [length]. lia.
  - destruct (IH (x + 1)) as [y Hy]; [done|done|].
    exists y. rewrite last_app, Hy. f_equal. f_equal.
    cbn [length]. lia.
Qed.

(** ** The shape of a conformant file *)

Lemma wellFormed_cells lines :
  Forall (fun l => wellFormedLine l = true) lines ->
  exists cells, Forall2 (fun l c => lineCell l = Some c) lines cells.
Proof.
  induction 1 as [|l lines Hl _ [cells IH]]; [by exists []|].
  apply wellFormedLine_cell in Hl as [c Hc].
  exists (c :: cells). by constructor.
Qed.

Lemma cells_coords lines cells :
  Forall2 (fun l c => lineCell l = Some c) lines cells ->
  mapM lineXY lines = Some cells.*1.
Proof.
  intros H. apply mapM_Some.
  induction H as [|l [[x y] t] lines cells Hl _ IH]; [constructor|].
  rewrite fmap_cons. constructor; [|done].
  by apply lineCell_lineXY in Hl.
Qed.

(** The lines of an accepted file are the cells of a progression. *)
Lemma conformant_structure path lines final :
  lines <> [] -> Z.of_nat (length lines) <= INT_MAX ->
  checkLines path 0 0 0 lines = inr final ->
  exists ks cells,
    ks <> [] /\ Forall (fun k => (0 < k)%nat) ks /\
    Forall2 (fun l c => lineCell l = Some c) lines cells /\
    cells.*1 = progression ks.
Proof.
  intros Hne Hbound Hcheck.
  pose proof (checkLines_inr _ _ _ _ _ _ Hcheck) as Hwf.
  destruct (wellFormed_cells _ Hwf) as [cells Hcells].
  pose proof (cells_coords _ _ Hcells) as Hxy.
  pose proof (checkLines_coordScan path _ _ Hwf Hxy 0 0 0) as Hscan.
  rewrite Hcheck in Hscan. simpl in Hscan.
  assert (length cells.*1 = length lines) as Hlen.
  { rewrite length_fmap. symmetry. by eapply Forall2_length. }
  assert (Z.of_nat (length cells.*1) <= INT_MAX) as Hbound'
    by (by rewrite Hlen).
  destruct (proj1 (coordScan_progression cells.*1 Hbound'))
    as (ks & Hks & Hpos & Hprog).
  { split; [|done]. intros E. rewrite E in Hlen. by destruct lines. }
  by exists ks, cells.
Qed.

(** On a conformant file within the range of the counters,
    [loadMaze] returns the tiles of the lines, column by column. *)
Lemma loadMaze_structure fs path content :
  node fs path = Readable content ->
  Z.of_nat (length (getlines content)) <= INT_MAX ->
  (isMazeFile fs path).1 = true ->
  exists ks cells maze,
    ks <> [] /\ Forall (fun k => (0 < k)%nat) ks /\
    Forall2 (fun l c => lineCell l = Some c) (getlines content) cells /\
    cells.*1 = progression ks /\
    loadMaze fs path = Some maze /\
    concat maze = cells.*2 /\ length <$> maze = ks.
Proof.
  intros Hnode Hbound Hvalid.
  destruct (isMazeFile_true _ _ Hvalid) as (content' & final & Hnode' & Hne & Hcheck).
  rewrite Hnode in Hnode'. injection Hnode' as <-.
  destruct (conformant_structure path (getlines content) final)
    as (ks & cells & Hks & Hpos & Hcells & Hprog); [|done|done|].
  { intros E. by apply getlines_nil in E. }
  destruct (loadLines_progression ks _ _ Hcells Hprog Hks Hpos)
    as (maze & Hload & Hconcat & Hlen).
  { apply Forall2_length in Hcells. apply (f_equal length) in Hprog.
    unfold progression in Hprog.
    rewrite length_fmap, length_progressionFrom in Hprog.
    pose proof (length_le_sum_list ks Hpos). lia. }
  exists ks, cells, maze. unfold loadMaze. rewrite Hvalid, Hnode. done.
Qed.

(** ** The line written for a tile *)

Lemma fullTile_lookup tile d :
  fullTile tile -> walls tile !! d = Some (wallFlag tile d).
Proof.
  intros H. unfold wallFlag. by destruct (H d) as [b ->].
Qed.

Lemma tileLine_full x y tile :
  fullTile tile -> tileLine x y tile = Some (cellLine (x, y, tile) ++ endl)%string.
Proof.
  intros H. unfold tileLine, DIRECTIONS. cbn [mapM mbind mret].
  rewrite !(fullTile_lookup tile) by done.
  cbn. unfold cellLine, endl.
  by rewrite !string_app_assoc, ?string_app_nil_l.
Qed.

Lemma blank_app s : (" " ++ s)%string = String " " s.
Proof. reflexivity. Qed.

Lemma bit_read (b : bool) : (1 =? (if b then 1 else 0)) = b.
Proof. by destruct b. Qed.

Lemma in_int_bit (b : bool) : in_int (if b then 1 else 0) = true.
Proof. by destruct b. Qed.

Lemma tileOf_wallFlags tile :
  fullTile tile ->
  tileOf (if wallFlag tile NORTH then 1 else 0)
         (if wallFlag tile EAST then 1 else 0)
         (if wallFlag tile SOUTH then 1 else 0)
         (if wallFlag tile WEST then 1 else 0) = tile.
Proof.
  intros H. destruct tile as [m]. unfold tileOf. f_equal.
  rewrite !bit_read. apply map_eq. intros d.
  pose proof (fullTile_lookup _ d H) as Hd. simpl in Hd. rewrite Hd.
  destruct d;
    repeat first [rewrite lookup_insert_eq | rewrite lookup_insert_ne by done];
    done.
Qed.

(** The line written for a tile reads back as its coordinates and the
    tile. *)
Lemma lineCell_cellLine x y tile :
  in_int x = true -> in_int y = true -> fullTile tile ->
  lineCell (cellLine (x, y, tile)) = Some (x, y, tile).
Proof.
  intros Hx Hy Hfull. unfold lineCell, lineValues, cellLine.
  rewrite !blank_app.
  rewrite !tokenize_token_blank, tokenize_token_end
    by auto using show_int_nonempty, show_int_notSpace.
  cbn [mapM mbind mret option_bind option_ret].
  rewrite !strToInt_show_int by auto using in_int_bit.
  cbn. by rewrite tileOf_wallFlags.
Qed.

Lemma cellLine_notNewline cell : allChars notNewline (cellLine cell) = true.
Proof.
  destruct cell as [[x y] tile]. unfold cellLine.
  rewrite !allChars_app, !show_int_notNewline. done.
Qed.

Lemma lineValues_cellLine x y tile :
  in_int x = true -> in_int y = true ->
  lineValues (cellLine (x, y, tile)) =
    Some [x; y; if wallFlag tile NORTH then 1 else 0;
          if wallFlag tile EAST then 1 else 0;
          if wallFlag tile SOUTH then 1 else 0;
          if wallFlag tile WEST then 1 else 0].
Proof.
  intros Hx Hy. unfold lineValues, cellLine.
  rewrite !blank_app.
  rewrite !tokenize_token_blank, tokenize_token_end
    by auto using show_int_nonempty, show_int_notSpace.
  cbn [mapM mbind mret option_bind option_ret].
  rewrite !strToInt_show_int by auto using in_int_bit.
  done.
Qed.

Lemma wellFormedLine_cellLine cell :
  goodCell cell -> wellFormedLine (cellLine cell) = true.
Proof.
  destruct cell as [[x y] tile]. intros (Hx & Hy & _). simpl in Hx, Hy.
  unfold wellFormedLine. rewrite lineValues_cellLine by done.
  unfold isBit. simpl.
  by destruct (wallFlag tile NORTH), (wallFlag tile EAST),
    (wallFlag tile SOUTH), (wallFlag tile WEST).
Qed.

Lemma cells_read_back cells :
  Forall goodCell cells ->
  Forall2 (fun l c => lineCell l = Some c) (cellLine <$> cells) cells.
Proof.
  induction 1 as [|[[x y] tile] cells (Hx & Hy & Hfull) _ IH]; [constructor|].
  rewrite fmap_cons. constructor; [|done]. by apply lineCell_cellLine.
Qed.

(** ** The text written for a maze *)

Lemma fileOfLines_cons l lines :
  fileOfLines (l :: lines) = (l ++ endl ++ fileOfLines lines)%string.
Proof. done. Qed.

Lemma fileOfLines_app a b :
  fileOfLines (a ++ b) = (fileOfLines a ++ fileOfLines b)%string.
Proof.
  induction a as [|l a IH]; [done|].
  rewrite <- app_comm_cons, !fileOfLines_cons, IH.
  by rewrite !string_app_assoc.
Qed.

Lemma columnText_cells column :
  forall x y,
    Forall fullTile column ->
    0 <= y -> y + Z.of_nat (length column) <= INT_MAX ->
    columnText x y column =
      Some (fileOfLines (cellLine <$> columnCells x y column)).
Proof.
  induction column as [|tile column IH]; intros x y Hfull Hy Hbound; [done|].
  apply Forall_cons in Hfull as [Ht Hfull].
  cbn [length] in Hbound. unfold INT_MAX in Hbound.
  cbn [columnText columnCells]. rewrite tileLine_full by done.
  rewrite int_add_small by (unfold INT_MIN, INT_MAX; lia).
  rewrite IH by (done || unfold INT_MAX; lia).
  rewrite fmap_cons, fileOfLines_cons. cbn.
  by rewrite string_app_assoc.
Qed.

Lemma mazeText_cells maze :
  forall x,
    Forall (Forall fullTile) maze ->
    Forall (fun column => Z.of_nat (length column) <= INT_MAX) maze ->
    0 <= x -> x + Z.of_nat (length maze) <= INT_MAX ->
    mazeText x maze = Some (fileOfLines (cellLine <$> mazeCells x maze)).
Proof.
  induction maze as [|column maze IH]; intros x Hfull Hlen Hx Hbound; [done|].
  apply Forall_cons in Hfull as [Hc Hfull].
  apply Forall_cons in Hlen as [Hl Hlen].
  cbn [length] in Hbound. unfold INT_MAX in Hbound.
  cbn [mazeText mazeCells]. rewrite columnText_cells by (done || lia).
  rewrite int_add_small by (unfold INT_MIN, INT_MAX; lia).
  rewrite IH by (done || unfold INT_MAX; lia).
  cbn. by rewrite fmap_app, fileOfLines_app.
Qed.

Lemma columnCells_coords column :
  forall x y, (columnCells x y column).*1 = columnFrom x y (length column).
Proof.
  induction column as [|tile column IH]; intros x y; [done|].
  cbn [columnCells length]. by rewrite fmap_cons, columnFrom_S, IH.
Qed.

Lemma columnCells_tiles column :
  forall x y, (columnCells x y column).*2 = column.
Proof.
  induction column as [|tile column IH]; intros x y; [done|].
  cbn [columnCells]. by rewrite fmap_cons, IH.
Qed.

Lemma mazeCells_coords maze :
  forall x, (mazeCells x maze).*1 = progressionFrom x (length <$> maze).
Proof.
  induction maze as [|column maze IH]; intros x; [done|].
  cbn [mazeCells]. rewrite fmap_app, columnCells_coords, IH. done.
Qed.

Lemma mazeCells_tiles maze : forall x, (mazeCells x maze).*2 = concat maze.
Proof.
  induction maze as [|column maze IH]; intros x; [done|].
  cbn [mazeCells]. rewrite fmap_app, columnCells_tiles, IH. done.
Qed.

Lemma columnCells_good column :
  forall x y,
    Forall fullTile column -> 0 <= x <= INT_MAX ->
    0 <= y -> y + Z.of_nat (length column) <= INT_MAX ->
    Forall goodCell (columnCells x y column).
Proof.
  induction column as [|tile column IH]; intros x y Hfull Hx Hy Hbound;
    [constructor|].
  apply Forall_cons in Hfull as [Ht Hfull].
  cbn [length] in Hbound. cbn [columnCells]. constructor.
  - unfold goodCell. simpl. rewrite !in_int_spec.
    unfold INT_MIN, INT_MAX in *. repeat split; (lia || done).
  - apply IH; (done || lia).
Qed.

Lemma mazeCells_good maze :
  forall x,
    Forall (Forall fullTile) maze ->
    Forall (fun column => Z.of_nat (length column) <= INT_MAX) maze ->
    0 <= x -> x + Z.of_nat (length maze) <= INT_MAX ->
    Forall goodCell (mazeCells x maze).
Proof.
  induction maze as [|column maze IH]; intros x Hfull Hlen Hx Hbound;
    [constructor|].
  apply Forall_cons in Hfull as [Hc Hfull].
  apply Forall_cons in Hlen as [Hl Hlen].
  cbn [length] in Hbound. cbn [mazeCells]. apply Forall_app. split.
  - apply columnCells_good; (done || lia).
  - apply IH; (done || lia).
Qed.

(** ** Saving a maze and reading it back *)

Lemma concat_lengths_inj {A} (a b : list (list A)) :
  concat a = concat b -> length <$> a = length <$> b -> a = b.
Proof.
  revert b. induction a as [|u a IH]; intros [|v b]; try done.
  rewrite !fmap_cons. cbn [concat]. intros Hc [= Hl Hls].
  apply app_inj_1 in Hc as [-> Hc]; [|done]. f_equal. by apply IH.
Qed.

Lemma length_concat_columns {A} (maze : list (list A)) :
  Forall (fun column => column <> []) maze ->
  (length maze <= length (concat maze))%nat.
Proof.
  induction 1 as [|column maze Hc _ IH]; [done|].
  cbn [concat length]. rewrite length_app.
  destruct column; [done|]. simpl. lia.
Qed.

Lemma length_column_concat {A} (maze : list (list A)) :
  Forall (fun column => (length column <= length (concat maze))%nat) maze.
Proof.
  induction maze as [|column maze IH]; [constructor|].
  cbn [concat]. rewrite length_app. constructor; [lia|].
  eapply Forall_impl; [exact IH|]. simpl. intros. lia.
Qed.

Lemma verdict_accepts {S : Type} (o : Warning + S) :
  (verdict o).1 = true -> verdict o = (true, []).
Proof. by destruct o. Qed.

Lemma fileOfLines_nonempty lines :
  lines <> [] -> fileOfLines lines <> EmptyString.
Proof.
  destruct lines as [|l lines]; [done|]. intros _.
  rewrite fileOfLines_cons. by destruct l.
Qed.

(** A storable maze is written to a file that the validator accepts
    and the loader reads back as the same maze. *)
Lemma storable_roundtrip fs path maze :
  storableMaze maze -> writable fs path = true ->
  exists fs',
    saveMaze fs maze path = Some (fs', []) /\
    isMazeFile fs' path = (true, []) /\
    loadMaze fs' path = Some maze.
Proof.
  intros (Hne & Hcols & Hfull & Hsize) Hw.
  pose proof (length_concat_columns maze Hcols) as Hlen.
  assert (Forall (fun column => Z.of_nat (length column) <= INT_MAX) maze)
    as Hcol.
  { eapply Forall_impl; [apply length_column_concat|]. simpl. intros. lia. }
  set (cells := mazeCells 0 maze).
  set (lines := cellLine <$> cells).
  assert (mazeText 0 maze = Some (fileOfLines lines)) as Htext
    by (apply mazeText_cells; (done || lia)).
  assert (Forall goodCell cells) as Hgood
    by (apply mazeCells_good; (done || lia)).
  pose proof (cells_read_back cells Hgood) as Hread.
  assert (getlines (fileOfLines lines) = lines) as Hlines.
  { apply getlines_fileOfLines, Forall_fmap, Forall_forall.
    intros c _. apply cellLine_notNewline. }
  assert (Forall (fun l => wellFormedLine l = true) lines) as Hwf.
  { apply Forall_fmap. eapply Forall_impl; [exact Hgood|].
    apply wellFormedLine_cellLine. }
  assert (cells.*1 = progression (length <$> maze)) as Hprog
    by apply mazeCells_coords.
  assert (Forall (fun k => (0 < k)%nat) (length <$> maze)) as Hpos.
  { apply Forall_fmap. eapply Forall_impl; [exact Hcols|].
    intros [|] ?; [done|simpl; lia]. }
  assert (length <$> maze <> []) as Hks by (by destruct maze).
  assert (length cells = length (concat maze)) as Hcells.
  { rewrite <- (mazeCells_tiles maze 0). by rewrite length_fmap. }
  assert (lines <> []) as Hlne.
  { intros E. apply (f_equal length) in E. unfold lines in E.
    rewrite length_fmap, Hcells in E. destruct maze as [|[|] ?]; try done.
    by apply Forall_cons in Hcols as [? _]. }
  set (fs' := write_file fs path (fileOfLines lines)).
  assert (node fs' path = Readable (fileOfLines lines)) as Hnode.
  { simpl. by rewrite String.eqb_refl. }
  assert (isMazeFile fs' path = (true, [])) as Hvalid.
  { rewrite (isMazeFile_readable _ _ _ Hnode)
      by (by apply fileOfLines_nonempty).
    apply verdict_accepts. rewrite Hlines.
    rewrite (checkLines_coordScan path lines cells.*1 Hwf)
      by (by apply cells_coords).
    apply coordScan_progression.
    - rewrite length_fmap, Hcells. done.
    - by exists (length <$> maze). }
  exists fs'. split; [|split; [done|]].
  - unfold saveMaze. rewrite Hw, Htext. done.
  - unfold loadMaze. rewrite Hvalid, Hnode, Hlines. simpl.
    destruct (loadLines_progression (length <$> maze) lines cells)
      as (maze' & Hload & Hconcat & Hlengths); try done.
    { rewrite length_fmap. lia. }
    rewrite Hload. f_equal. apply concat_lengths_inj; [|done].
    rewrite Hconcat. apply mazeCells_tiles.
Qed.

(** What [loadMaze] returns is storable. *)
Lemma loadMaze_storable fs path content maze :
  node fs path = Readable content ->
  Z.of_nat (length (getlines content)) <= INT_MAX ->
  loadMaze fs path = Some maze ->
  storableMaze maze.
Proof.
  intros Hnode Hbound Hload.
  assert ((isMazeFile fs path).1 = true) as Hvalid.
  { unfold loadMaze in Hload. by destruct ((isMazeFile fs path).1). }
  destruct (loadMaze_structure _ _ _ Hnode Hbound Hvalid)
    as (ks & cells & maze' & Hks & Hpos & Hcells & Hprog & Hload' & Hconcat & Hlen).
  rewrite Hload in Hload'. injection Hload' as <-.
  split; [|split; [|split]].
  - intros ->. by rewrite <- Hlen in Hks.
  - rewrite <- Hlen in Hpos. rewrite Forall_fmap in Hpos.
    eapply Forall_impl; [exact Hpos|]. intros [|] ?; [simpl in *; lia|done].
  - apply Forall_concat. rewrite Hconcat. apply Forall_fmap.
    clear -Hcells. induction Hcells as [|l [[x y] t] ls cs Hl _ IH];
      constructor; [|done].
    apply lineCell_inv in Hl as (n & e & s & w & _ & ->). apply tileOf_full.
  - rewrite Hconcat, length_fmap.
    apply Forall2_length in Hcells. by rewrite <- Hcells.
Qed.

(** ** Further facts about the loop of the validator *)

Lemma Forall_forallb_true {A} (f : A -> bool) l :
  forallb f l = true -> Forall (fun a => f a = true) l.
Proof.
  induction l as [|a l IH]; simpl; [constructor|].
  rewrite andb_true_iff. intros [? ?]. constructor; auto.
Qed.

Lemma getlines_nonempty content :
  getlines content <> [] -> content <> EmptyString.
Proof. by intros H ->. Qed.

Lemma wrap_int_add a b : int_add (wrap_int a) b = wrap_int (a + b).
Proof.
  unfold int_add, wrap_int. f_equal.
  replace ((a + 2 ^ 31) mod 2 ^ 32 - 2 ^ 31 + b + 2 ^ 31)
    with ((a + 2 ^ 31) mod 2 ^ 32 + b) by lia.
  rewrite Zplus_mod_idemp_l. f_equal. lia.
Qed.

(** The loop on a prefix of the lines, then on the rest. *)
Lemma checkLines_app path pre :
  forall lineNum ex ey rest,
    checkLines path lineNum ex ey (pre ++ rest) =
      match checkLines path lineNum ex ey pre with
      | inl w => inl w
      | inr (lineNum', ex', ey') => checkLines path lineNum' ex' ey' rest
      end.
Proof.
  induction pre as [|line pre IH]; intros lineNum ex ey rest; [done|].
  rewrite <- app_comm_cons, !checkLines_cons.
  destruct (checkLine path (int_add lineNum 1) ex ey line) as [|[ex' ey']];
    [done|apply IH].
Qed.

(** [lineNum] counts the lines read, within an [int]. *)
Lemma checkLines_lineNum path pre :
  forall a ex ey lineNum' ex' ey',
    checkLines path (wrap_int a) ex ey pre = inr (lineNum', ex', ey') ->
    lineNum' = wrap_int (a + Z.of_nat (length pre)).
Proof.
  induction pre as [|line pre IH]; intros a ex ey lineNum' ex' ey'.
  - simpl. intros [= <- _ _]. f_equal. lia.
  - rewrite checkLines_cons, wrap_int_add.
    destruct (checkLine path (wrap_int (a + 1)) ex ey line) as [|[ex1 ey1]];
      [done|].
    intros H. apply IH in H. rewrite H. f_equal. cbn [length]. lia.
Qed.


Lemma checkWalls_unfold path lineNum x y n e s w :
  checkWalls path lineNum [x; y; n; e; s; w] =
    if negb (isBit n) then Some (InvalidWallValue path n 3 lineNum)
    else if negb (isBit e) then Some (InvalidWallValue path e 4 lineNum)
    else if negb (isBit s) then Some (InvalidWallValue path s 5 lineNum)
    else if negb (isBit w) then Some (InvalidWallValue path w 6 lineNum)
    else None.
Proof.
  unfold checkWalls, first_warning, at_, isBit.
  change (Z.to_nat (2 + 0)) with 2%nat. change (Z.to_nat (2 + 1)) with 3%nat.
  change (Z.to_nat (2 + 2)) with 4%nat. change (Z.to_nat (2 + 3)) with 5%nat.
  cbn [nth].
  destruct (negb ((n =? 0) || (n =? 1))); [done|].
  destruct (negb ((e =? 0) || (e =? 1))); [done|].
  destruct (negb ((s =? 0) || (s =? 1))); [done|].
  by destruct (negb ((w =? 0) || (w =? 1))).
Qed.

(** The loop over the wall values stops at the first value that is
    neither 0 nor 1 and reports it with its position in the line. *)
Lemma checkWalls_bad path lineNum x y n e s w :
  forallb isBit [n; e; s; w] = false ->
  exists (i : nat) v,
    [n; e; s; w] !! i = Some v /\ isBit v = false /\
    Forall (fun u => isBit u = true) (take i [n; e; s; w]) /\
    checkWalls path lineNum [x; y; n; e; s; w] =
      Some (InvalidWallValue path v (Z.of_nat i + 3) lineNum).
Proof.
  rewrite checkWalls_unfold. cbn [forallb].
  destruct (isBit n) eqn:Hn; cbn [negb andb].
  2:{ intros _. exists 0%nat, n. split; [done|]. split; [done|].
      split; [simpl; constructor|done]. }
  destruct (isBit e) eqn:He; cbn [negb andb].
  2:{ intros _. exists 1%nat, e. split; [done|]. split; [done|].
      split; [simpl; auto|done]. }
  destruct (isBit s) eqn:Hs; cbn [negb andb].
  2:{ intros _. exists 2%nat, s. split; [done|]. split; [done|].
      split; [simpl; auto|done]. }
  destruct (isBit w) eqn:Hw; cbn [negb andb]; [done|].
  intros _. exists 3%nat, w. split; [done|]. split; [done|].
  split; [simpl; auto|done].
Qed.

(** One turn of the loop on a line of six integers. *)
Lemma checkLines_values path lineNum ex ey line rest x y n e s w :
  lineValues line = Some [x; y; n; e; s; w] ->
  checkLines path lineNum ex ey (line :: rest) =
    match coordStep ex ey x y with
    | Some (ex', ey') =>
        match checkWalls path (int_add lineNum 1) [x; y; n; e; s; w] with
        | Some warning => inl warning
        | None => checkLines path (int_add lineNum 1) ex' ey' rest
        end
    | None => inl (UnexpectedXY path x y (int_add lineNum 1))
    end.
Proof.
  intros H. rewrite checkLines_cons.
  rewrite (checkLine_values _ _ _ _ _ _ _ _ _ _ _ H).
  destruct (coordStep ex ey x y) as [[ex' ey']|]; [|done].
  by destruct (checkWalls path (int_add lineNum 1) [x; y; n; e; s; w]).
Qed.

(** ** The scenario of the specification *)

Example scenario_validates :
  isMazeFile (fsWith "maze.maz" scenarioFile) "maze.maz" = (true, []).
Proof. vm_compute. reflexivity. Qed.

Example scenario_loads :
  loadMaze (fsWith "maze.maz" scenarioFile) "maze.maz" = Some scenarioMaze.
Proof. vm_compute. reflexivity. Qed.

Example scenario_saves : mazeText 0 scenarioMaze = Some scenarioFile.
Proof. vm_compute. reflexivity. Qed.

Example scenario_walls :
  (fun tile => (fun d => walls tile !! d) <$> DIRECTIONS) <$> concat scenarioMaze
  = [[Some true; Some true; Some false; Some false];
     [Some false; Some true; Some true; Some false];
     [Some true; Some false; Some false; Some true]].
Proof. vm_compute. reflexivity. Qed.

(** ** Which mazes are written to a file the validator accepts *)

Lemma columnText_full column :
  forall x y text,
    columnText x y column = Some text -> Forall fullTile column.
Proof.
  induction column as [|tile column IH]; intros x y text; [constructor|].
  cbn [columnText].
  destruct (tileLine x y tile) as [l|] eqn:El; [|done]. simpl.
  destruct (columnText x (int_add y 1) column) as [r|] eqn:Er; [|done].
  intros _. constructor; [|by eapply IH].
  intros d. revert El. unfold tileLine, DIRECTIONS. cbn [mapM mbind mret].
  destruct (walls tile !! NORTH) as [bn|] eqn:En; [|done].
  destruct (walls tile !! EAST) as [be|] eqn:Ee; [|done].
  destruct (walls tile !! SOUTH) as [bs|] eqn:Es; [|done].
  destruct (walls tile !! WEST) as [bw|] eqn:Ew; [|done].
  intros _. destruct d; eauto.
Qed.

Lemma mazeText_full maze :
  forall x text, mazeText x maze = Some text -> Forall (Forall fullTile) maze.
Proof.
  induction maze as [|column maze IH]; intros x text; [constructor|].
  cbn [mazeText].
  destruct (columnText x 0 column) as [c|] eqn:Ec; [|done]. simpl.
  destruct (mazeText (int_add x 1) maze) as [r|] eqn:Er; [|done].
  intros _. constructor; [by eapply columnText_full|by eapply IH].
Qed.

(** The empty columns at the end of a maze leave no trace in the
    file. *)
Lemma mazeText_empty_columns k :
  forall x, mazeText x (replicate k []) = Some EmptyString.
Proof.
  induction k as [|k IH]; intros x; [done|].
  cbn [replicate mazeText columnText]. simpl. by rewrite IH.
Qed.

Lemma mazeText_empty_tail body k :
  forall x, mazeText x (body ++ replicate k []) = mazeText x body.
Proof.
  induction body as [|column body IH]; intros x.
  - apply mazeText_empty_columns.
  - rewrite <- app_comm_cons. cbn [mazeText]. by rewrite IH.
Qed.

Lemma gaplessMaze_split maze :
  gaplessMaze maze ->
  exists body (k : nat),
    maze = body ++ replicate k [] /\ body <> [] /\
    Forall (fun column => column <> []) body.
Proof.
  induction maze as [|column maze IH] using rev_ind; intros [Hne Hgap];
    [done|].
  destruct column as [|tile column].
  - destruct IH as (body & k & -> & Hbody & Hcols).
    { split.
      - by rewrite concat_app, app_nil_r in Hne.
      - intros i j ci cj Hij Hi Hj. apply (Hgap i j); [done| |].
        + by apply lookup_app_l_Some.
        + by apply lookup_app_l_Some. }
    exists body, (S k). split; [|done].
    by rewrite <- app_assoc, replicate_S_end.
  - exists (maze ++ [tile :: column]), 0%nat.
    split; [by rewrite app_nil_r|]. split; [by destruct maze|].
    apply Forall_lookup. intros i ci Hi.
    destruct (decide (i = length maze)) as [->|Hne'].
    + rewrite list_lookup_middle in Hi by done. by injection Hi as <-.
    + apply (Hgap i (length maze) ci (tile :: column)); [|done| |done].
      * apply lookup_lt_Some in Hi. rewrite length_app in Hi. simpl in Hi. lia.
      * by rewrite list_lookup_middle.
Qed.

(** The columns of a maze whose coordinates are those of a file the
    validator accepts. *)
Lemma gaplessMaze_progression (maze : list (list BasicTile)) ks :
  ks <> [] -> Forall (fun k => (0 < k)%nat) ks ->
  progressionFrom 0 (length <$> maze) = progression ks ->
  gaplessMaze maze.
Proof.
  intros Hks Hpos Hprog.
  assert (forall i : nat,
            default 0%nat ((length <$> maze) !! i) = default 0%nat (ks !! i))
    as Hcount.
  { intros i. rewrite <- !(count_progressionFrom _ 0). unfold progression in Hprog.
    by rewrite Hprog. }
  assert (forall (i : nat) c, maze !! i = Some c -> c <> [] ->
            (i < length ks)%nat) as Hin.
  { intros i c Hi Hc. specialize (Hcount i).
    rewrite list_lookup_fmap, Hi in Hcount. simpl in Hcount.
    destruct (ks !! i) as [k|] eqn:Ek; [by apply lookup_lt_Some in Ek|].
    simpl in Hcount. by destruct c. }
  assert (forall (i : nat) c, (i < length ks)%nat -> maze !! i = Some c ->
            c <> []) as Hout.
  { intros i c Hlt Hi ->. specialize (Hcount i).
    rewrite list_lookup_fmap, Hi in Hcount. simpl in Hcount.
    destruct (lookup_lt_is_Some_2 ks i Hlt) as [k Ek].
    rewrite Ek in Hcount. simpl in Hcount.
    pose proof (Forall_lookup_1 _ _ _ _ Hpos Ek). simpl in *. lia. }
  split.
  - destruct ks as [|k ks]; [done|].
    apply Forall_cons in Hpos as [Hk _].
    specialize (Hcount 0%nat). simpl in Hcount.
    destruct maze as [|[|tile column] maze]; simpl in Hcount; try lia. done.
  - intros i j ci cj Hij Hi Hj Hcj. apply (Hout i); [|done].
    pose proof (Hin j cj Hj Hcj). lia.
Qed.

(** * The claims *)

(** C1.  For a file whose every line tokenizes into six integers with
    the last four in {0, 1}, and which has no more lines than an [int]
    counts, [isMazeFile] returns true exactly when the coordinates
    taken line by line are (0,0), ..., (0,k0-1), (1,0), ..., (1,k1-1),
    (2,0), ... for some positive column lengths k0, k1, ... *)
Theorem isMazeFile_iff_progression fs path content :
  node fs path = Readable content ->
  Forall (fun l => wellFormedLine l = true) (getlines content) ->
  Z.of_nat (length (getlines content)) <= INT_MAX ->
  (isMazeFile fs path).1 = true <->
  exists ks,
    ks <> [] /\ Forall (fun k => (0 < k)%nat) ks /\
    mapM lineXY (getlines content) = Some (progression ks).
Proof.
  intros Hnode Hwf Hbound.
  destruct (wellFormed_coords _ Hwf) as [cs Hcs].
  assert (length cs = length (getlines content)) as Hlen
    by (symmetry; by eapply length_mapM).
  assert (Z.of_nat (length cs) <= INT_MAX) as Hbound' by (by rewrite Hlen).
  pose proof (coordScan_progression cs Hbound') as Hscan.
  rewrite Hcs.
  destruct (decide (content = EmptyString)) as [->|Hne].
  - unfold isMazeFile, isFile. rewrite Hnode. simpl.
    destruct cs; [|done]. split; [done|].
    intros (ks & Hks & Hpos & [= Hprog]).
    destruct (proj2 Hscan) as [? _]; [by exists ks|done].
  - rewrite (isMazeFile_readable _ _ _ Hnode Hne).
    rewrite (checkLines_coordScan path _ cs Hwf Hcs).
    assert (cs <> []) as Hcsne.
    { intros ->. destruct (getlines content) eqn:E; [|done].
      by apply getlines_nil in E. }
    split.
    + intros H. destruct (proj1 Hscan) as (ks & ? & ? & ->); [done|].
      by exists ks.
    + intros (ks & Hks & Hpos & [= Hprog]).
      apply Hscan. by exists ks.
Qed.

Lemma isMazeFile_iff_progression_witness :
  (isMazeFile (fsWith "maze.maz" scenarioFile) "maze.maz").1 = true <->
  exists ks,
    ks <> [] /\ Forall (fun k => (0 < k)%nat) ks /\
    mapM lineXY (getlines scenarioFile) = Some (progression ks).
Proof.
  apply (isMazeFile_iff_progression (fsWith "maze.maz" scenarioFile)
           "maze.maz" scenarioFile).
  - reflexivity.
  - apply Forall_forallb_true. vm_compute. reflexivity.
  - vm_compute. discriminate.
Defined.

(** C2, as amended.  When the first line carries (0,0) and the second
    (1,0), both with wall values in {0, 1}, the second line is taken as
    the start of column 1: validation goes on with the third line at
    [expectedX = 1], [expectedY = 1], and the file made of these two
    lines alone is accepted. *)
Theorem second_line_starts_column fs path content l1 l2 rest
    n1 e1 s1 w1 n2 e2 s2 w2 :
  node fs path = Readable content ->
  getlines content = l1 :: l2 :: rest ->
  lineValues l1 = Some [0; 0; n1; e1; s1; w1] ->
  forallb isBit [n1; e1; s1; w1] = true ->
  lineValues l2 = Some [1; 0; n2; e2; s2; w2] ->
  forallb isBit [n2; e2; s2; w2] = true ->
  isMazeFile fs path = verdict (checkLines path 2 1 1 rest) /\
  (rest = [] -> isMazeFile fs path = (true, [])).
Proof.
  intros Hnode Hlines H1 B1 H2 B2.
  assert (isMazeFile fs path = verdict (checkLines path 2 1 1 rest)) as E.
  { rewrite (isMazeFile_readable _ _ content Hnode)
      by (apply getlines_nonempty; by rewrite Hlines).
    rewrite Hlines.
    rewrite (checkLines_values _ _ _ _ _ _ _ _ _ _ _ _ H1).
    rewrite checkWalls_bits by done.
    change (coordStep 0 0 0 0) with (Some (0, 1)). cbv beta iota.
    rewrite (checkLines_values _ _ _ _ _ _ _ _ _ _ _ _ H2).
    rewrite checkWalls_bits by done.
    change (coordStep 0 1 1 0) with (Some (1, 1)). cbv beta iota.
    reflexivity. }
  split; [done|]. intros ->. by rewrite E.
Qed.

Lemma second_line_starts_column_witness :
  isMazeFile (fsWith "two.maz" twoColumnFile) "two.maz"
  = verdict (checkLines "two.maz" 2 1 1 []) /\
  (@nil string = [] ->
   isMazeFile (fsWith "two.maz" twoColumnFile) "two.maz" = (true, [])).
Proof.
  apply (second_line_starts_column (fsWith "two.maz" twoColumnFile)
           "two.maz" twoColumnFile "0 0 0 0 0 0" "1 0 0 0 0 0" []
           0 0 0 0 0 0 0 0); reflexivity.
Defined.

(** C2, as stated, fails: the file whose two lines carry (0,0) and
    (1,0) is accepted, and no unexpected coordinate is reported on its
    second line. *)
Lemma second_line_rejected_counterexample :
  node (fsWith "two.maz" twoColumnFile) "two.maz" = Readable twoColumnFile /\
  mapM lineXY (getlines twoColumnFile) = Some [(0, 0); (1, 0)] /\
  forallb wellFormedLine (getlines twoColumnFile) = true /\
  isMazeFile (fsWith "two.maz" twoColumnFile) "two.maz" = (true, []) /\
  isMazeFile (fsWith "two.maz" twoColumnFile) "two.maz"
  <> (false, [UnexpectedXY "two.maz" 1 0 2]).
Proof. repeat split; try (vm_compute; reflexivity). vm_compute. discriminate. Qed.

(** C5.  The file whose three lines carry (0,0), (1,0), (1,1) with all
    wall tokens 0 is accepted, and the file whose two lines carry (0,0),
    (2,0) is rejected for the coordinates of its second line. *)
Theorem column_skip_rule fs pathA contentA a1 a2 a3 pathB contentB b1 b2 :
  node fs pathA = Readable contentA ->
  getlines contentA = [a1; a2; a3] ->
  lineValues a1 = Some [0; 0; 0; 0; 0; 0] ->
  lineValues a2 = Some [1; 0; 0; 0; 0; 0] ->
  lineValues a3 = Some [1; 1; 0; 0; 0; 0] ->
  node fs pathB = Readable contentB ->
  getlines contentB = [b1; b2] ->
  lineValues b1 = Some [0; 0; 0; 0; 0; 0] ->
  lineValues b2 = Some [2; 0; 0; 0; 0; 0] ->
  isMazeFile fs pathA = (true, []) /\
  isMazeFile fs pathB = (false, [UnexpectedXY pathB 2 0 2]).
Proof.
  intros HA HlA A1 A2 A3 HB HlB B1 B2. split.
  - rewrite (isMazeFile_readable _ _ contentA HA)
      by (apply getlines_nonempty; by rewrite HlA).
    rewrite HlA.
    rewrite (checkLines_values _ _ _ _ _ _ _ _ _ _ _ _ A1).
    change (coordStep 0 0 0 0) with (Some (0, 1)). cbv beta iota.
    rewrite checkWalls_bits by done.
    rewrite (checkLines_values _ _ _ _ _ _ _ _ _ _ _ _ A2).
    change (coordStep 0 1 1 0) with (Some (1, 1)). cbv beta iota.
    rewrite checkWalls_bits by done.
    rewrite (checkLines_values _ _ _ _ _ _ _ _ _ _ _ _ A3).
    change (coordStep 1 1 1 1) with (Some (1, 2)). cbv beta iota.
    rewrite checkWalls_bits by done. reflexivity.
  - rewrite (isMazeFile_readable _ _ contentB HB)
      by (apply getlines_nonempty; by rewrite HlB).
    rewrite HlB.
    rewrite (checkLines_values _ _ _ _ _ _ _ _ _ _ _ _ B1).
    change (coordStep 0 0 0 0) with (Some (0, 1)). cbv beta iota.
    rewrite checkWalls_bits by done.
    rewrite (checkLines_values _ _ _ _ _ _ _ _ _ _ _ _ B2).
    change (coordStep 0 1 2 0) with (@None (Z * Z)). reflexivity.
Qed.

Lemma column_skip_rule_witness :
  isMazeFile (fsWith2 "skip.maz" skipFile "jump.maz" jumpFile) "skip.maz"
  = (true, []) /\
  isMazeFile (fsWith2 "skip.maz" skipFile "jump.maz" jumpFile) "jump.maz"
  = (false, [UnexpectedXY "jump.maz" 2 0 2]).
Proof.
  apply (column_skip_rule (fsWith2 "skip.maz" skipFile "jump.maz" jumpFile)
           "skip.maz" skipFile "0 0 0 0 0 0" "1 0 0 0 0 0" "1 1 0 0 0 0"
           "jump.maz" jumpFile "0 0 0 0 0 0" "2 0 0 0 0 0"); reflexivity.
Defined.

(** C6.  A file whose first line is [1 0 0 0 0 0] is rejected for the
    coordinates of line 1.  In a file whose first line is
    [0 0 0 0 0 0] that line is accepted: validation goes on with the
    second line at [expectedX = 0], [expectedY = 1], and the file made
    of this line alone is accepted. *)
Theorem first_line_rule fs pathA contentA a restA pathB contentB b restB :
  node fs pathA = Readable contentA ->
  getlines contentA = a :: restA ->
  lineValues a = Some [1; 0; 0; 0; 0; 0] ->
  node fs pathB = Readable contentB ->
  getlines contentB = b :: restB ->
  lineValues b = Some [0; 0; 0; 0; 0; 0] ->
  isMazeFile fs pathA = (false, [UnexpectedXY pathA 1 0 1]) /\
  isMazeFile fs pathB = verdict (checkLines pathB 1 0 1 restB) /\
  (restB = [] -> isMazeFile fs pathB = (true, [])).
Proof.
  intros HA HlA A1 HB HlB B1.
  assert (isMazeFile fs pathB = verdict (checkLines pathB 1 0 1 restB)) as E.
  { rewrite (isMazeFile_readable _ _ contentB HB)
      by (apply getlines_nonempty; by rewrite HlB).
    rewrite HlB.
    rewrite (checkLines_values _ _ _ _ _ _ _ _ _ _ _ _ B1).
    change (coordStep 0 0 0 0) with (Some (0, 1)). cbv beta iota.
    rewrite checkWalls_bits by done. reflexivity. }
  split; [|split; [done|]].
  - rewrite (isMazeFile_readable _ _ contentA HA)
      by (apply getlines_nonempty; by rewrite HlA).
    rewrite HlA.
    rewrite (checkLines_values _ _ _ _ _ _ _ _ _ _ _ _ A1).
    change (coordStep 0 0 1 0) with (@None (Z * Z)). reflexivity.
  - intros ->. by rewrite E.
Qed.

Lemma first_line_rule_witness :
  isMazeFile (fsWith2 "bad.maz" badStartFile "good.maz" goodStartFile) "bad.maz"
  = (false, [UnexpectedXY "bad.maz" 1 0 1]) /\
  isMazeFile (fsWith2 "bad.maz" badStartFile "good.maz" goodStartFile) "good.maz"
  = verdict (checkLines "good.maz" 1 0 1 []) /\
  (@nil string = [] ->
   isMazeFile (fsWith2 "bad.maz" badStartFile "good.maz" goodStartFile) "good.maz"
   = (true, [])).
Proof.
  apply (first_line_rule
           (fsWith2 "bad.maz" badStartFile "good.maz" goodStartFile)
           "bad.maz" badStartFile "1 0 0 0 0 0" []
           "good.maz" goodStartFile "0 0 0 0 0 0" []); reflexivity.
Defined.



(** C8.  A line whose coordinates are accepted but one of whose four
    wall values is neither 0 nor 1 makes [isMazeFile] return false
    with the warning for an invalid wall value: it names the first
    such value, its position in the line and the number of the
    line. *)
Theorem invalid_wall_value fs path content pre line post
    lineNum ex ey x y n e s w state :
  node fs path = Readable content ->
  getlines content = pre ++ line :: post ->
  checkLines path 0 0 0 pre = inr (lineNum, ex, ey) ->
  lineValues line = Some [x; y; n; e; s; w] ->
  coordStep ex ey x y = Some state ->
  forallb isBit [n; e; s; w] = false ->
  exists (i : nat) v,
    [n; e; s; w] !! i = Some v /\ isBit v = false /\
    Forall (fun u => isBit u = true) (take i [n; e; s; w]) /\
    isMazeFile fs path =
      (false, [InvalidWallValue path v (Z.of_nat i + 3)
                 (wrap_int (Z.of_nat (length pre) + 1))]).
Proof.
  intros Hnode Hlines Hpre Hvalues Hstep Hbad.
  destruct (checkWalls_bad path (wrap_int (Z.of_nat (length pre) + 1))
              x y n e s w Hbad) as (i & v & Hi & Hv & Hbefore & Hwalls).
  exists i, v. split; [done|]. split; [done|]. split; [done|].
  rewrite (isMazeFile_readable _ _ content Hnode)
    by (apply getlines_nonempty; rewrite Hlines; by destruct pre).
  rewrite Hlines, checkLines_app, Hpre.
  rewrite (checkLines_values _ _ _ _ _ _ _ _ _ _ _ _ Hvalues), Hstep.
  destruct state as [ex' ey'].
  change 0 with (wrap_int 0) in Hpre at 1.
  apply checkLines_lineNum in Hpre. rewrite Hpre, wrap_int_add.
  rewrite Z.add_0_l. by rewrite Hwalls.
Qed.

Lemma invalid_wall_value_witness :
  exists (i : nat) v,
    [0; 2; 0; 0] !! i = Some v /\ isBit v = false /\
    Forall (fun u => isBit u = true) (take i [0; 2; 0; 0]) /\
    isMazeFile (fsWith "wall.maz" badWallFile) "wall.maz" =
      (false, [InvalidWallValue "wall.maz" v (Z.of_nat i + 3)
                 (wrap_int (Z.of_nat (length ["0 0 0 0 0 0"%string]) + 1))]).
Proof.
  apply (invalid_wall_value (fsWith "wall.maz" badWallFile) "wall.maz"
           badWallFile ["0 0 0 0 0 0"%string] "0 1 0 2 0 0"
           ["0 2 0 0 0 0"%string]
           1 0 1 0 1 0 2 0 0 (0, 2)); reflexivity.
Defined.

(** C9.  [isMazeFile] returns false for a path that is no file, for a
    file that cannot be opened and for an empty file, each with a
    warning of its own, and an empty file has no line to examine. *)
Theorem missing_and_empty fs missing locked empty :
  node fs missing = Absent ->
  node fs locked = Unreadable ->
  node fs empty = Readable EmptyString ->
  isMazeFile fs missing = (false, [NotAFile missing]) /\
  isMazeFile fs locked = (false, [CouldNotOpen locked]) /\
  isMazeFile fs empty = (false, [IsEmpty empty]) /\
  getlines EmptyString = [] /\
  (forall p q, NotAFile p <> IsEmpty q /\ CouldNotOpen p <> IsEmpty q).
Proof.
  intros Hm Hl He. unfold isMazeFile, isFile. rewrite Hm, Hl, He.
  repeat split; done.
Qed.

Lemma missing_and_empty_witness :
  isMazeFile fsOdd "nowhere.maz" = (false, [NotAFile "nowhere.maz"]) /\
  isMazeFile fsOdd "locked.maz" = (false, [CouldNotOpen "locked.maz"]) /\
  isMazeFile fsOdd "empty.maz" = (false, [IsEmpty "empty.maz"]) /\
  getlines EmptyString = [] /\
  (forall p q, NotAFile p <> IsEmpty q /\ CouldNotOpen p <> IsEmpty q).
Proof.
  apply (missing_and_empty fsOdd "nowhere.maz" "locked.maz" "empty.maz");
    reflexivity.
Defined.

(** C10.  On a conformant file (with no more lines than an [int]
    counts) [loadMaze] returns a maze that is not empty, that has as
    many columns as the X-value of the last line plus one, and in which
    the length of every column is the number of lines that carry its
    X-value. *)
Theorem loadMaze_columns fs path content :
  node fs path = Readable content ->
  Z.of_nat (length (getlines content)) <= INT_MAX ->
  (isMazeFile fs path).1 = true ->
  exists maze,
    loadMaze fs path = Some maze /\
    maze <> [] /\
    (exists line x,
       last (getlines content) = Some line /\ lineX line = Some x /\
       Z.of_nat (length maze) = x + 1) /\
    (forall (i : nat) column,
       maze !! i = Some column ->
       length column =
       length (filter (fun l => lineX l = Some (Z.of_nat i))
                 (getlines content))).
Proof.
  intros Hnode Hbound Hvalid.
  destruct (loadMaze_structure _ _ _ Hnode Hbound Hvalid)
    as (ks & cells & maze & Hks & Hpos & Hcells & Hprog & Hload & Hconcat & Hlen).
  exists maze. split; [done|]. split; [|split].
  - intros ->. by rewrite <- Hlen in Hks.
  - destruct (last_progressionFrom ks 0 Hks Hpos) as [y Hlast].
    fold (progression ks) in Hlast. rewrite <- Hprog, fmap_last in Hlast.
    destruct (last cells) as [[[x' y'] tile]|] eqn:Hc; [|done].
    injection Hlast as -> ->.
    pose proof (Forall2_last _ _ _ Hcells) as Hl. rewrite Hc in Hl.
    destruct (last (getlines content)) as [line|]; [|by inversion Hl].
    inversion Hl as [? ? Hline|]; clear Hl.
    exists line, (0 + Z.of_nat (length ks) - 1). split; [done|].
    split; [by apply lineCell_lineX in Hline|].
    rewrite <- Hlen, length_fmap. lia.
  - intros i column Hi.
    rewrite (count_lines _ _ _ Hcells), Hprog.
    pose proof (count_progressionFrom ks 0 i) as Hcount.
    rewrite Z.add_0_l in Hcount. unfold progression. rewrite Hcount.
    by rewrite <- Hlen, list_lookup_fmap, Hi.
Qed.

Lemma loadMaze_columns_witness :
  exists maze,
    loadMaze (fsWith "maze.maz" scenarioFile) "maze.maz" = Some maze /\
    maze <> [] /\
    (exists line x,
       last (getlines scenarioFile) = Some line /\ lineX line = Some x /\
       Z.of_nat (length maze) = x + 1) /\
    (forall (i : nat) column,
       maze !! i = Some column ->
       length column =
       length (filter (fun l => lineX l = Some (Z.of_nat i))
                 (getlines scenarioFile))).
Proof.
  apply (loadMaze_columns (fsWith "maze.maz" scenarioFile) "maze.maz"
           scenarioFile).
  - reflexivity.
  - vm_compute. discriminate.
  - vm_compute. reflexivity.
Defined.

(** C3.  A maze that [loadMaze] returned for a conformant file (with
    no more lines than an [int] counts) is saved to a file from which
    [loadMaze] returns the same maze: the same columns of the same
    tiles. *)
Theorem save_load_roundtrip fs path content maze path' :
  node fs path = Readable content ->
  Z.of_nat (length (getlines content)) <= INT_MAX ->
  loadMaze fs path = Some maze ->
  writable fs path' = true ->
  exists fs',
    saveMaze fs maze path' = Some (fs', []) /\
    loadMaze fs' path' = Some maze.
Proof.
  intros Hnode Hbound Hload Hw.
  pose proof (loadMaze_storable _ _ _ _ Hnode Hbound Hload) as Hst.
  destruct (storable_roundtrip fs path' maze Hst Hw)
    as (fs' & Hsave & _ & Hback).
  by exists fs'.
Qed.

Lemma save_load_roundtrip_witness :
  exists fs',
    saveMaze (fsWith "maze.maz" scenarioFile) scenarioMaze "copy.maz"
    = Some (fs', []) /\
    loadMaze fs' "copy.maz" = Some scenarioMaze.
Proof.
  apply (save_load_roundtrip (fsWith "maze.maz" scenarioFile) "maze.maz"
           scenarioFile scenarioMaze "copy.maz").
  - reflexivity.
  - vm_compute. discriminate.
  - vm_compute. reflexivity.
  - reflexivity.
Defined.

(** C4, as amended.  For a maze with no more tiles and no more columns
    than an [int] counts and a path that can be opened for writing,
    [saveMaze] writes a file that [isMazeFile] accepts exactly when
    every tile has its four wall flags, the maze has a tile, and no
    empty column comes before a column that is not empty. *)
Theorem saved_file_accepted_iff fs path maze :
  writable fs path = true ->
  Z.of_nat (length (concat maze)) <= INT_MAX ->
  Z.of_nat (length maze) <= INT_MAX ->
  (exists fs',
     saveMaze fs maze path = Some (fs', []) /\
     isMazeFile fs' path = (true, [])) <->
  Forall (Forall fullTile) maze /\ gaplessMaze maze.
Proof.
  intros Hw Hsize Hcolumns. split.
  - intros (fs' & Hsave & Hvalid).
    unfold saveMaze in Hsave. rewrite Hw in Hsave. simpl in Hsave.
    destruct (mazeText 0 maze) as [text|] eqn:Htext; [|done].
    injection Hsave as <-.
    pose proof (mazeText_full _ _ _ Htext) as Hfull.
    split; [done|].
    assert (Forall (fun column => Z.of_nat (length column) <= INT_MAX) maze)
      as Hcol.
    { eapply Forall_impl; [apply length_column_concat|]. simpl. intros. lia. }
    set (cells := mazeCells 0 maze).
    rewrite mazeText_cells in Htext by (done || lia).
    injection Htext as <-. fold cells in Hvalid.
    assert (Forall goodCell cells) as Hgood
      by (apply mazeCells_good; (done || lia)).
    assert (getlines (fileOfLines (cellLine <$> cells)) = cellLine <$> cells)
      as Hlines.
    { apply getlines_fileOfLines, Forall_fmap, Forall_forall.
      intros c _. apply cellLine_notNewline. }
    destruct (isMazeFile_true
                (write_file fs path (fileOfLines (cellLine <$> cells))) path)
      as (content & final & Hnode & Hne & Hscan); [by rewrite Hvalid|].
    simpl in Hnode. rewrite String.eqb_refl in Hnode. injection Hnode as <-.
    rewrite Hlines in Hscan.
    destruct (conformant_structure path (cellLine <$> cells) final)
      as (ks & cells' & Hks & Hpos & Hread & Hprog); [| |done|].
    { intros E. by rewrite E in Hne. }
    { rewrite length_fmap. unfold cells.
      rewrite <- (length_fmap snd), mazeCells_tiles. done. }
    apply (gaplessMaze_progression maze ks Hks Hpos).
    rewrite <- Hprog, <- (mazeCells_coords maze 0). fold cells.
    pose proof (cells_coords _ _ Hread) as H1.
    pose proof (cells_coords _ _ (cells_read_back cells Hgood)) as H2.
    rewrite H1 in H2. by injection H2.
  - intros [Hfull Hgap].
    destruct (gaplessMaze_split maze Hgap) as (body & k & -> & Hbody & Hcols).
    apply Forall_app in Hfull as [Hfull _].
    assert (storableMaze body) as Hst.
    { split; [done|]. split; [done|]. split; [done|].
      rewrite concat_app, length_app in Hsize. lia. }
    destruct (storable_roundtrip fs path body Hst Hw)
      as (fs' & Hsave & Hvalid & _).
    exists fs'. split; [|done].
    unfold saveMaze in *. by rewrite mazeText_empty_tail.
Qed.

Lemma saved_file_accepted_iff_witness :
  (exists fs',
     saveMaze (fsWith "maze.maz" scenarioFile) (scenarioMaze ++ [[]; []])
       "copy.maz" = Some (fs', []) /\
     isMazeFile fs' "copy.maz" = (true, [])) <->
  Forall (Forall fullTile) (scenarioMaze ++ [[]; []]) /\
  gaplessMaze (scenarioMaze ++ [[]; []]).
Proof.
  apply (saved_file_accepted_iff (fsWith "maze.maz" scenarioFile) "copy.maz"
           (scenarioMaze ++ [[]; []])).
  - reflexivity.
  - vm_compute. discriminate.
  - vm_compute. discriminate.
Defined.

(** C4, as stated, fails: the file written for the maze without
    columns is empty and [isMazeFile] rejects it, and so is the file
    written for a maze whose first column is empty. *)
Lemma saved_file_rejected_counterexample :
  (exists fs',
     saveMaze (fsWith "maze.maz" scenarioFile) [] "copy.maz" = Some (fs', []) /\
     isMazeFile fs' "copy.maz" = (false, [IsEmpty "copy.maz"])) /\
  (exists fs',
     saveMaze (fsWith "maze.maz" scenarioFile) [[]; [tileOf 0 0 0 0]] "copy.maz"
     = Some (fs', []) /\
     isMazeFile fs' "copy.maz" = (false, [UnexpectedXY "copy.maz" 1 0 1])).
Proof.
  split; eexists; (split; [reflexivity|]); vm_compute; reflexivity.
Qed.

(** * Further properties of the maze file functions *)

(** ** Warnings of the loop *)

Lemma readValues_position path lineNum before :
  forall a values token after,
    mapM strToInt before = Some values ->
    strToInt token = None ->
    readValues path lineNum (wrap_int a) (before ++ token :: after) =
      inl (NonNumeric path token lineNum
             (wrap_int (a + Z.of_nat (length before) + 1))).
Proof.
  induction before as [|t before IH]; intros a values token after Hv Ht.
  - simpl. rewrite Ht, wrap_int_add.
    by replace (a + Z.of_nat 0 + 1) with (a + 1) by lia.
  - apply mapM_Some in Hv.
    apply Forall2_cons_inv_l in Hv as (v & vs & Hv & Hvs & ->).
    apply mapM_Some in Hvs.
    rewrite <- app_comm_cons. cbn [readValues]. rewrite Hv, wrap_int_add.
    rewrite (IH (a + 1) vs) by done. cbn [length].
    by replace (a + 1 + Z.of_nat (length before) + 1)
      with (a + Z.of_nat (S (length before)) + 1) by lia.
Qed.

Lemma isInt_false token : isInt token = false -> strToInt token = None.
Proof. unfold isInt. by destruct (strToInt token). Qed.

Lemma checkLine_warningLine path lineNum ex ey line w :
  checkLine path lineNum ex ey line = inl w ->
  warningLine w = Some lineNum.
Proof.
  unfold checkLine.
  destruct (6 =? length (tokenize line))%nat; simpl; [|by intros [= <-]].
  destruct (readValues path lineNum 0 (tokenize line)) as [w'|values] eqn:Hv.
  - intros [= <-]. clear -Hv. revert Hv. generalize 0 at 1 as i.
    induction (tokenize line) as [|t ts IH]; intros i; simpl; [done|].
    destruct (strToInt t); [|by intros [= <-]].
    destruct (readValues path lineNum (int_add i 1) ts) eqn:E; [|done].
    intros [= <-]. by eapply IH.
  - assert (forall st : Z * Z,
      match checkWalls path lineNum values with
      | Some w0 => inl w0
      | None => inr st
      end = inl w -> warningLine w = Some lineNum) as Hwalls.
    { intros st. unfold checkWalls. simpl.
      repeat match goal with
             | |- context [if ?c then Some _ else None] => destruct c
             end; by intros [= <-]. }
    destruct (_ && _); [apply Hwalls|].
    destruct (_ && _); [apply Hwalls|]. by intros [= <-].
Qed.

(** The loop returns with the warning of the first line that the loop
    body does not accept. *)
Lemma checkLines_inl path lines :
  forall a ex ey w,
    checkLines path (wrap_int a) ex ey lines = inl w ->
    exists pre line post lineNum ex' ey',
      lines = pre ++ line :: post /\
      checkLines path (wrap_int a) ex ey pre = inr (lineNum, ex', ey') /\
      checkLine path (wrap_int (a + Z.of_nat (length pre) + 1)) ex' ey' line
      = inl w.
Proof.
  induction lines as [|l lines IH]; intros a ex ey w; [done|].
  rewrite checkLines_cons, wrap_int_add.
  destruct (checkLine path (wrap_int (a + 1)) ex ey l) as [w'|[ex1 ey1]] eqn:E.
  - intros [= <-]. exists [], l, lines, (wrap_int a), ex, ey.
    split; [done|]. split; [done|]. by rewrite Z.add_0_r.
  - intros H. apply IH in H
      as (pre & line & post & lineNum & ex' & ey' & -> & Hpre & Hline).
    exists (l :: pre), line, post, lineNum, ex', ey'.
    split; [done|]. split.
    + by rewrite checkLines_cons, wrap_int_add, E.
    + rewrite <- Hline. cbn [length].
      by replace (a + Z.of_nat (S (length pre)) + 1)
        with (a + 1 + Z.of_nat (length pre) + 1) by lia.
Qed.

(** X1.  A line of six tokens reached by the loop, one of whose tokens
    is no integer while those before it are, is rejected with the
    warning for a non-numeric entry: it names the token, the number of
    the line and the position of the token in the line, counted from
    one. *)
Theorem non_numeric_token fs path content pre line post lineNum ex ey
    before token after values :
  node fs path = Readable content ->
  getlines content = pre ++ line :: post ->
  checkLines path 0 0 0 pre = inr (lineNum, ex, ey) ->
  tokenize line = before ++ token :: after ->
  length (tokenize line) = 6%nat ->
  mapM strToInt before = Some values ->
  isInt token = false ->
  isMazeFile fs path =
    (false, [NonNumeric path token (wrap_int (Z.of_nat (length pre) + 1))
               (Z.of_nat (length before) + 1)]).
Proof.
  intros Hnode Hlines Hpre Htok Hlen Hv Ht.
  rewrite (isMazeFile_readable _ _ content Hnode)
    by (apply getlines_nonempty; rewrite Hlines; by destruct pre).
  rewrite Hlines, checkLines_app, Hpre, checkLines_cons.
  change 0 with (wrap_int 0) in Hpre at 1.
  apply checkLines_lineNum in Hpre. rewrite Hpre, wrap_int_add, Z.add_0_l.
  unfold checkLine. rewrite Hlen. simpl. rewrite Htok.
  change 0 with (wrap_int 0) at 1.
  rewrite (readValues_position _ _ _ _ _ _ _ Hv (isInt_false _ Ht)).
  rewrite Htok, length_app in Hlen. cbn [length] in Hlen.
  rewrite Z.add_0_l, (wrap_int_small (Z.of_nat (length before) + 1));
    [done|].
  unfold INT_MIN, INT_MAX. lia.
Qed.

Lemma non_numeric_token_witness :
  isMazeFile (fsWith "letters.maz" nonNumericFile) "letters.maz" =
    (false, [NonNumeric "letters.maz" "x"
               (wrap_int (Z.of_nat (length ["0 0 0 0 0 0"%string]) + 1))
               (Z.of_nat (length ["0"%string; "1"%string]) + 1)]).
Proof.
  apply (non_numeric_token (fsWith "letters.maz" nonNumericFile)
           "letters.maz" nonNumericFile ["0 0 0 0 0 0"%string] "0 1 x 0 0 0"
           [] 1 0 1 ["0"%string; "1"%string] "x"
           ["0"%string; "0"%string; "0"%string] [0; 1]); reflexivity.
Defined.

(** X2.  A line of six integers reached by the loop whose coordinates
    take neither of the two cases is rejected with the warning for
    unexpected coordinates, whatever its wall values are: the
    coordinates are checked before the walls. *)
Theorem unexpected_coordinates fs path content pre line post lineNum ex ey
    x y n e s w :
  node fs path = Readable content ->
  getlines content = pre ++ line :: post ->
  checkLines path 0 0 0 pre = inr (lineNum, ex, ey) ->
  lineValues line = Some [x; y; n; e; s; w] ->
  ~ (x = ex /\ y = ey) ->
  ~ (x = int_add ex 1 /\ y = 0 /\ ey <> 0) ->
  isMazeFile fs path =
    (false, [UnexpectedXY path x y (wrap_int (Z.of_nat (length pre) + 1))]).
Proof.
  intros Hnode Hlines Hpre Hvalues H1 H2.
  rewrite (isMazeFile_readable _ _ content Hnode)
    by (apply getlines_nonempty; rewrite Hlines; by destruct pre).
  rewrite Hlines, checkLines_app, Hpre.
  rewrite (checkLines_values _ _ _ _ _ _ _ _ _ _ _ _ Hvalues).
  change 0 with (wrap_int 0) in Hpre at 1.
  apply checkLines_lineNum in Hpre. rewrite Hpre, wrap_int_add, Z.add_0_l.
  assert (coordStep ex ey x y = None) as ->; [|done].
  unfold coordStep.
  destruct ((x =? ex) && (y =? ey)) eqn:E1.
  { apply andb_true_iff in E1 as [?%Z.eqb_eq ?%Z.eqb_eq]. by destruct H1. }
  destruct ((x =? int_add ex 1) && (y =? 0) && negb (ey =? 0)) eqn:E2; [|done].
  apply andb_true_iff in E2 as [E2 E3].
  apply andb_true_iff in E2 as [?%Z.eqb_eq ?%Z.eqb_eq].
  apply negb_true_iff, Z.eqb_neq in E3. by destruct H2.
Qed.

Lemma unexpected_coordinates_witness :
  isMazeFile (fsWith "twice.maz" repeatedLineFile) "twice.maz" =
    (false, [UnexpectedXY "twice.maz" 0 0
               (wrap_int (Z.of_nat (length ["0 0 0 0 0 0"%string]) + 1))]).
Proof.
  apply (unexpected_coordinates (fsWith "twice.maz" repeatedLineFile)
           "twice.maz" repeatedLineFile ["0 0 0 0 0 0"%string] "0 0 7 0 0 0"
           [] 1 0 1 0 0 7 0 0 0);
    [reflexivity|reflexivity|reflexivity|reflexivity| |].
  - intros [_ H]. discriminate H.
  - intros [H _]. vm_compute in H. discriminate H.
Defined.

(** X3.  Whenever [isMazeFile] rejects a file that is not empty, some
    line is the first one the loop does not accept: the lines before it
    are accepted, the warning logged is the one the loop body gives for
    that line, and it names the number of that line. *)
Theorem rejection_names_first_line fs path content :
  node fs path = Readable content ->
  content <> EmptyString ->
  (isMazeFile fs path).1 = false ->
  exists pre line post lineNum ex ey w,
    getlines content = pre ++ line :: post /\
    checkLines path 0 0 0 pre = inr (lineNum, ex, ey) /\
    checkLine path (wrap_int (Z.of_nat (length pre) + 1)) ex ey line = inl w /\
    isMazeFile fs path = (false, [w]) /\
    warningLine w = Some (wrap_int (Z.of_nat (length pre) + 1)).
Proof.
  intros Hnode Hne. rewrite (isMazeFile_readable _ _ _ Hnode Hne).
  destruct (checkLines path 0 0 0 (getlines content)) as [w|final] eqn:E;
    [|done].
  intros _. change 0 with (wrap_int 0) in E at 1.
  apply checkLines_inl in E
    as (pre & line & post & lineNum & ex & ey & Hlines & Hpre & Hline).
  rewrite Z.add_0_l in Hline.
  exists pre, line, post, lineNum, ex, ey, w.
  split; [done|]. split; [done|]. split; [done|]. split; [done|].
  by eapply checkLine_warningLine.
Qed.

Lemma rejection_names_first_line_witness :
  exists pre line post lineNum ex ey w,
    getlines jumpFile = pre ++ line :: post /\
    checkLines "jump.maz" 0 0 0 pre = inr (lineNum, ex, ey) /\
    checkLine "jump.maz" (wrap_int (Z.of_nat (length pre) + 1)) ex ey line
    = inl w /\
    isMazeFile (fsWith "jump.maz" jumpFile) "jump.maz" = (false, [w]) /\
    warningLine w = Some (wrap_int (Z.of_nat (length pre) + 1)).
Proof.
  apply (rejection_names_first_line (fsWith "jump.maz" jumpFile) "jump.maz"
           jumpFile).
  - reflexivity.
  - discriminate.
  - vm_compute. reflexivity.
Defined.

(** X4.  Validation stops at the first line it does not accept: a file
    that is rejected stays rejected, with the same warning, when lines
    are added after its last line. *)
Theorem rejection_survives_appending fs path content fs' content' rest :
  node fs path = Readable content ->
  node fs' path = Readable content' ->
  content <> EmptyString ->
  getlines content' = getlines content ++ rest ->
  (isMazeFile fs path).1 = false ->
  isMazeFile fs' path = isMazeFile fs path.
Proof.
  intros Hnode Hnode' Hne Hlines.
  rewrite (isMazeFile_readable _ _ _ Hnode Hne).
  rewrite (isMazeFile_readable _ _ _ Hnode').
  - rewrite Hlines, checkLines_app.
    by destruct (checkLines path 0 0 0 (getlines content)) as [w|[[? ?] ?]].
  - apply getlines_nonempty. rewrite Hlines.
    destruct (getlines content) eqn:E; [|done]. by apply getlines_nil in E.
Qed.

Lemma rejection_survives_appending_witness :
  isMazeFile (fsWith "jump.maz" jumpFileLonger) "jump.maz"
  = isMazeFile (fsWith "jump.maz" jumpFile) "jump.maz".
Proof.
  apply (rejection_survives_appending (fsWith "jump.maz" jumpFile) "jump.maz"
           jumpFile (fsWith "jump.maz" jumpFileLonger) jumpFileLonger
           ["2 1 0 0 0 0"%string]).
  - reflexivity.
  - reflexivity.
  - discriminate.
  - reflexivity.
  - vm_compute. reflexivity.
Defined.

(** X5.  A file that [isMazeFile] accepts begins with the lines of a
    file that it accepts as well: every non-empty prefix of the lines
    of an accepted file is accepted. *)
Theorem accepted_prefix_is_accepted fs path content fs' path' content' rest :
  node fs path = Readable content ->
  node fs' path' = Readable content' ->
  content' <> EmptyString ->
  getlines content = getlines content' ++ rest ->
  (isMazeFile fs path).1 = true ->
  isMazeFile fs' path' = (true, []).
Proof.
  intros Hnode Hnode' Hne' Hlines Hvalid.
  destruct (isMazeFile_true _ _ Hvalid) as (c & final & Hc & Hne & Hcheck).
  rewrite Hnode in Hc. injection Hc as <-.
  pose proof (checkLines_inr _ _ _ _ _ _ Hcheck) as Hwf.
  rewrite Hlines in Hwf, Hcheck. apply Forall_app in Hwf as [Hwf _].
  destruct (wellFormed_coords _ Hwf) as [cs Hcs].
  rewrite (isMazeFile_readable _ _ _ Hnode' Hne'). apply verdict_accepts.
  rewrite checkLines_app in Hcheck.
  pose proof (checkLines_coordScan path' _ _ Hwf Hcs 0 0 0) as E'.
  pose proof (checkLines_coordScan path _ _ Hwf Hcs 0 0 0) as E.
  rewrite E', <- E.
  by destruct (checkLines path 0 0 0 (getlines content')).
Qed.

Lemma accepted_prefix_is_accepted_witness :
  isMazeFile (fsWith "two.maz" twoColumnFile) "two.maz" = (true, []).
Proof.
  apply (accepted_prefix_is_accepted (fsWith "skip.maz" skipFile) "skip.maz"
           skipFile (fsWith "two.maz" twoColumnFile) "two.maz" twoColumnFile
           ["1 1 0 0 0 0"%string]).
  - reflexivity.
  - reflexivity.
  - discriminate.
  - reflexivity.
  - vm_compute. reflexivity.
Defined.

(** X6.  [isMazeFile] accepts only files that are not empty and whose
    every line is six integers with the last four in {0, 1}. *)
Theorem accepted_lines_are_wellFormed fs path content :
  node fs path = Readable content ->
  (isMazeFile fs path).1 = true ->
  content <> EmptyString /\
  Forall (fun l => wellFormedLine l = true) (getlines content).
Proof.
  intros Hnode Hvalid.
  destruct (isMazeFile_true _ _ Hvalid) as (c & final & Hc & Hne & Hcheck).
  rewrite Hnode in Hc. injection Hc as <-.
  split; [done|]. by eapply checkLines_inr.
Qed.

Lemma accepted_lines_are_wellFormed_witness :
  scenarioFile <> EmptyString /\
  Forall (fun l => wellFormedLine l = true) (getlines scenarioFile).
Proof.
  apply (accepted_lines_are_wellFormed (fsWith "maze.maz" scenarioFile)
           "maze.maz" scenarioFile).
  - reflexivity.
  - vm_compute. reflexivity.
Defined.

(** ** The coordinates of an accepted file *)

Lemma NoDup_columnFrom x y k : NoDup (columnFrom x y k).
Proof.
  unfold columnFrom. apply NoDup_fmap_2; [|apply NoDup_seq].
  intros i j [= H]. lia.
Qed.

Lemma NoDup_progressionFrom ks : forall x, NoDup (progressionFrom x ks).
Proof.
  induction ks as [|k ks IH]; intros x; [constructor|].
  rewrite progressionFrom_cons. apply NoDup_app.
  split; [apply NoDup_columnFrom|]. split; [|apply IH].
  intros c Hc Hc'.
  pose proof (columnFrom_fst x 0 k) as H1.
  pose proof (progressionFrom_fst ks (x + 1)) as H2.
  rewrite Forall_forall in H1, H2.
  specialize (H1 c Hc). specialize (H2 c Hc'). simpl in H1, H2. lia.
Qed.

(** Each accepted line continues the column of the line before it or
    starts the next column. *)
Lemma coordScan_consecutive cs :
  forall ex ey,
    0 <= ex -> 0 <= ey ->
    ex + Z.of_nat (length cs) <= INT_MAX ->
    ey + Z.of_nat (length cs) <= INT_MAX ->
    coordScan ex ey cs = true ->
    forall (i : nat) x1 y1 x2 y2,
      cs !! i = Some (x1, y1) -> cs !! S i = Some (x2, y2) ->
      (x2 = x1 /\ y2 = y1 + 1) \/ (x2 = x1 + 1 /\ y2 = 0).
Proof.
  induction cs as [|[a b] cs IH]; intros ex ey Hx Hy Bx By Hscan; [done|].
  cbn [length] in Bx, By. unfold INT_MAX in Bx, By.
  rewrite coordScan_cons in Hscan.
  destruct (coordStep ex ey a b) as [[ex' ey']|] eqn:Hstep; [|done].
  apply coordStep_inv in Hstep; [|unfold INT_MIN, INT_MAX; lia..].
  assert (ex' = a /\ ey' = b + 1 /\ 0 <= a <= ex + 1 /\ 0 <= b + 1 <= ey + 1)
    as (-> & -> & Ha & Hb).
  { destruct Hstep as [(-> & -> & [= -> ->])|(-> & -> & _ & [= -> ->])];
      repeat split; lia. }
  intros [|i] x1 y1 x2 y2.
  - intros [= <- <-]. destruct cs as [|[x2' y2'] cs]; [done|].
    intros [= -> ->]. rewrite coordScan_cons in Hscan.
    destruct (coordStep a (b + 1) x2 y2) as [st|] eqn:Hstep2; [|done].
    cbn [length] in Bx, By.
    apply coordStep_inv in Hstep2; [|unfold INT_MIN, INT_MAX; lia..].
    destruct Hstep2 as [(-> & -> & _)|(-> & -> & _)]; [by left|by right].
  - apply (IH a (b + 1)); (done || unfold INT_MAX; lia).
Qed.

(** X7.  In a file that [isMazeFile] accepts (with no more lines than
    an [int] counts) the first line carries (0,0), no two lines carry
    the same coordinates, and every further line either has the X-value
    of the line before it and the next Y-value, or the next X-value and
    the Y-value 0. *)
Theorem accepted_coordinates fs path content :
  node fs path = Readable content ->
  Z.of_nat (length (getlines content)) <= INT_MAX ->
  (isMazeFile fs path).1 = true ->
  exists cs,
    mapM lineXY (getlines content) = Some cs /\
    head cs = Some (0, 0) /\
    NoDup cs /\
    forall (i : nat) x1 y1 x2 y2,
      cs !! i = Some (x1, y1) -> cs !! S i = Some (x2, y2) ->
      (x2 = x1 /\ y2 = y1 + 1) \/ (x2 = x1 + 1 /\ y2 = 0).
Proof.
  intros Hnode Hbound Hvalid.
  destruct (isMazeFile_true _ _ Hvalid) as (c & final & Hc & Hne & Hcheck).
  rewrite Hnode in Hc. injection Hc as <-.
  destruct (conformant_structure path (getlines content) final)
    as (ks & cells & Hks & Hpos & Hcells & Hprog); [|done|done|].
  { intros E. by apply getlines_nil in E. }
  exists cells.*1. split; [by apply cells_coords|].
  pose proof (checkLines_inr _ _ _ _ _ _ Hcheck) as Hwf.
  pose proof (checkLines_coordScan path _ _ Hwf (cells_coords _ _ Hcells) 0 0 0)
    as Hscan.
  rewrite Hcheck in Hscan. simpl in Hscan.
  assert (length cells.*1 = length (getlines content)) as Hlen.
  { rewrite length_fmap. symmetry. by eapply Forall2_length. }
  split; [|split].
  - rewrite Hprog. destruct ks as [|[|j] ks]; [done| |].
    + apply Forall_cons in Hpos as [? _]. lia.
    + unfold progression. by rewrite progressionFrom_cons, columnFrom_S.
  - rewrite Hprog. apply NoDup_progressionFrom.
  - apply (coordScan_consecutive cells.*1 0 0); (done || lia).
Qed.

Lemma accepted_coordinates_witness :
  exists cs,
    mapM lineXY (getlines scenarioFile) = Some cs /\
    head cs = Some (0, 0) /\
    NoDup cs /\
    forall (i : nat) x1 y1 x2 y2,
      cs !! i = Some (x1, y1) -> cs !! S i = Some (x2, y2) ->
      (x2 = x1 /\ y2 = y1 + 1) \/ (x2 = x1 + 1 /\ y2 = 0).
Proof.
  apply (accepted_coordinates (fsWith "maze.maz" scenarioFile) "maze.maz"
           scenarioFile).
  - reflexivity.
  - vm_compute. discriminate.
  - vm_compute. reflexivity.
Defined.

(** ** When [saveMaze] throws *)

Lemma tileLine_None x y tile : tileLine x y tile = None <-> ~ fullTile tile.
Proof.
  split.
  - intros H Hfull. by rewrite tileLine_full in H.
  - intros Hnot. unfold tileLine, DIRECTIONS. cbn [mapM mbind mret].
    destruct (walls tile !! NORTH) as [bn|] eqn:En; [|done].
    destruct (walls tile !! EAST) as [be|] eqn:Ee; [|done].
    destruct (walls tile !! SOUTH) as [bs|] eqn:Es; [|done].
    destruct (walls tile !! WEST) as [bw|] eqn:Ew; [|done].
    destruct Hnot. intros []; eauto.
Qed.

Lemma columnText_None column :
  forall x y,
    columnText x y column = None <-> Exists (fun t => ~ fullTile t) column.
Proof.
  induction column as [|tile column IH]; intros x y.
  - split; [done|]. by intros H%Exists_nil.
  - cbn [columnText]. rewrite Exists_cons, <- (IH x (int_add y 1)).
    rewrite <- (tileLine_None x y tile).
    destruct (tileLine x y tile); simpl; [|by split; auto].
    destruct (columnText x (int_add y 1) column); simpl.
    + split; [done|]. by intros [|].
    + split; auto.
Qed.

Lemma mazeText_None maze :
  forall x,
    mazeText x maze = None <->
    Exists (Exists (fun t => ~ fullTile t)) maze.
Proof.
  induction maze as [|column maze IH]; intros x.
  - split; [done|]. by intros H%Exists_nil.
  - cbn [mazeText]. rewrite Exists_cons, <- (IH (int_add x 1)).
    rewrite <- (columnText_None column x 0).
    destruct (columnText x 0 column); simpl; [|by split; auto].
    destruct (mazeText (int_add x 1) maze); simpl.
    + split; [done|]. by intros [|].
    + split; auto.
Qed.

(** X8.  [saveMaze] lets an exception escape exactly when the file can
    be opened for writing and some tile of the maze has no flag for one
    of the four directions; when the file cannot be opened it logs the
    warning and leaves the file system as it was. *)
Theorem saveMaze_throws_iff fs maze path :
  (saveMaze fs maze path = None <->
   writable fs path = true /\
   Exists (Exists (fun t => ~ fullTile t)) maze) /\
  (writable fs path = false ->
   saveMaze fs maze path = Some (fs, [UnableToSave path])).
Proof.
  unfold saveMaze. destruct (writable fs path); simpl.
  - split; [|done]. rewrite <- (mazeText_None maze 0).
    destruct (mazeText 0 maze); simpl; split; (done || by intros [_ ?] || auto).
  - split; [|done]. split; [done|]. by intros [? _].
Qed.

Lemma saveMaze_throws_iff_witness :
  saveMaze (fsWith "maze.maz" scenarioFile) [[threeWallTile]] "copy.maz" = None.
Proof.
  apply (proj1 (saveMaze_throws_iff (fsWith "maze.maz" scenarioFile)
                  [[threeWallTile]] "copy.maz")).
  split; [reflexivity|]. do 2 apply Exists_cons_hd.
  intros H. destruct (H WEST) as [b Hb]. vm_compute in Hb. discriminate Hb.
Defined.

(** ** The text [saveMaze] writes, whatever the maze *)

Lemma tileLine_Some x y tile text :
  tileLine x y tile = Some text ->
  fullTile tile /\ text = (cellLine (x, y, tile) ++ endl)%string.
Proof.
  intros H.
  assert (fullTile tile) as Hfull.
  { intros d. destruct (walls tile !! d) eqn:E; [eauto|].
    assert (~ fullTile tile) as Hnot
      by (intros Hf; destruct (Hf d) as [? Hd]; congruence).
    apply (tileLine_None x y) in Hnot. congruence. }
  split; [done|]. rewrite tileLine_full in H by done. by injection H.
Qed.

(** Every tile is written as one line. *)
Lemma columnText_lines column :
  forall x y text,
    columnText x y column = Some text ->
    exists cells,
      text = fileOfLines (cellLine <$> cells) /\ cells.*2 = column.
Proof.
  induction column as [|tile column IH]; intros x y text.
  - intros [= <-]. by exists [].
  - cbn [columnText].
    destruct (tileLine x y tile) as [l|] eqn:El; [|done]. simpl.
    destruct (columnText x (int_add y 1) column) as [r|] eqn:Er; [|done].
    intros [= <-]. apply tileLine_Some in El as [_ ->].
    apply IH in Er as (cells & -> & <-).
    exists ((x, y, tile) :: cells). split; [|done].
    rewrite fmap_cons, fileOfLines_cons. by rewrite string_app_assoc.
Qed.

Lemma mazeText_lines maze :
  forall x text,
    mazeText x maze = Some text ->
    exists cells,
      text = fileOfLines (cellLine <$> cells) /\ cells.*2 = concat maze.
Proof.
  induction maze as [|column maze IH]; intros x text.
  - intros [= <-]. by exists [].
  - cbn [mazeText].
    destruct (columnText x 0 column) as [c|] eqn:Ec; [|done]. simpl.
    destruct (mazeText (int_add x 1) maze) as [r|] eqn:Er; [|done].
    intros [= <-]. apply columnText_lines in Ec as (cellsA & -> & <-).
    apply IH in Er as (cellsB & -> & HB).
    exists (cellsA ++ cellsB). split.
    + by rewrite fmap_app, fileOfLines_app.
    + by rewrite fmap_app, HB.
Qed.

Lemma mazeText_line_count maze x text :
  mazeText x maze = Some text ->
  length (getlines text) = length (concat maze).
Proof.
  intros H. apply mazeText_lines in H as (cells & -> & <-).
  rewrite getlines_fileOfLines, !length_fmap; [done|].
  apply Forall_fmap, Forall_forall. intros c _. apply cellLine_notNewline.
Qed.

(** ** Which mazes survive saving and loading *)

(** X10.  For a maze with no more tiles than an [int] counts, saving
    it and loading the file gives back the same maze exactly when the
    maze has a column, has no empty column and has the four flags in
    every tile. *)
Theorem roundtrip_iff_storable fs path maze :
  writable fs path = true ->
  Z.of_nat (length (concat maze)) <= INT_MAX ->
  storableMaze maze <->
  exists fs',
    saveMaze fs maze path = Some (fs', []) /\ loadMaze fs' path = Some maze.
Proof.
  intros Hw Hsize. split.
  - intros Hst. destruct (storable_roundtrip fs path maze Hst Hw)
      as (fs' & Hsave & _ & Hload). by exists fs'.
  - intros (fs' & Hsave & Hload).
    unfold saveMaze in Hsave. rewrite Hw in Hsave. simpl in Hsave.
    destruct (mazeText 0 maze) as [text|] eqn:Htext; [|done].
    injection Hsave as <-.
    apply (loadMaze_storable (write_file fs path text) path text maze);
      [| |done].
    + simpl. by rewrite String.eqb_refl.
    + by rewrite (mazeText_line_count _ _ _ Htext).
Qed.

Lemma roundtrip_iff_storable_witness :
  storableMaze scenarioMaze <->
  exists fs',
    saveMaze (fsWith "maze.maz" scenarioFile) scenarioMaze "copy.maz"
    = Some (fs', []) /\
    loadMaze fs' "copy.maz" = Some scenarioMaze.
Proof.
  apply (roundtrip_iff_storable (fsWith "maze.maz" scenarioFile) "copy.maz"
           scenarioMaze).
  - reflexivity.
  - vm_compute. discriminate.
Defined.

(** A trailing empty column is lost: the file is accepted, but the
    maze read back is another one. *)
Example empty_column_is_lost :
  exists fs',
    saveMaze (fsWith "maze.maz" scenarioFile) [[tileOf 0 0 0 0]; []] "copy.maz"
    = Some (fs', []) /\
    isMazeFile fs' "copy.maz" = (true, []) /\
    loadMaze fs' "copy.maz" = Some [[tileOf 0 0 0 0]].
Proof.
  eexists. split; [reflexivity|]. split; vm_compute; reflexivity.
Qed.

(** ** The tiles of a loaded maze *)

Lemma fst_snd_eq {A B} (l k : list (A * B)) :
  l.*1 = k.*1 -> l.*2 = k.*2 -> l = k.
Proof.
  revert k. induction l as [|[a b] l IH]; intros [|[a' b'] k]; try done.
  rewrite !fmap_cons. simpl. intros [= -> H1] [= -> H2]. f_equal. by apply IH.
Qed.

(** The cells of the lines of a loaded file are the tiles of the maze
    with their positions. *)
Lemma loadMaze_cells fs path content maze :
  node fs path = Readable content ->
  Z.of_nat (length (getlines content)) <= INT_MAX ->
  loadMaze fs path = Some maze ->
  Forall2 (fun l c => lineCell l = Some c) (getlines content)
    (mazeCells 0 maze).
Proof.
  intros Hnode Hbound Hload.
  assert ((isMazeFile fs path).1 = true) as Hvalid.
  { unfold loadMaze in Hload. by destruct ((isMazeFile fs path).1). }
  destruct (loadMaze_structure _ _ _ Hnode Hbound Hvalid)
    as (ks & cells & maze' & Hks & Hpos & Hcells & Hprog & Hload' & Hconcat & Hlen).
  rewrite Hload in Hload'. injection Hload' as <-.
  replace (mazeCells 0 maze) with cells; [done|].
  apply fst_snd_eq.
  - by rewrite Hprog, mazeCells_coords, Hlen.
  - by rewrite mazeCells_tiles.
Qed.

Lemma elem_of_columnCells column :
  forall x0 y0 x y tile,
    (x, y, tile) ∈ columnCells x0 y0 column <->
    x = x0 /\ exists j : nat, y = y0 + Z.of_nat j /\ column !! j = Some tile.
Proof.
  induction column as [|t column IH]; intros x0 y0 x y tile.
  - cbn [columnCells]. rewrite elem_of_nil. split; [done|].
    by intros (_ & j & _ & ?).
  - cbn [columnCells]. rewrite elem_of_cons, IH. split.
    + intros [[= -> -> ->]|(-> & j & -> & Hj)].
      * split; [done|]. exists 0%nat. split; [lia|done].
      * split; [done|]. exists (S j). split; [lia|done].
    + intros (-> & [|j] & -> & Hj).
      * left. injection Hj as <-. do 2 f_equal. lia.
      * right. split; [done|]. exists j. split; [lia|done].
Qed.

Lemma elem_of_mazeCells maze :
  forall x0 x y tile,
    (x, y, tile) ∈ mazeCells x0 maze <->
    exists (i j : nat) column,
      x = x0 + Z.of_nat i /\ y = Z.of_nat j /\
      maze !! i = Some column /\ column !! j = Some tile.
Proof.
  induction maze as [|c maze IH]; intros x0 x y tile.
  - cbn [mazeCells]. rewrite elem_of_nil. split; [done|].
    by intros (i & j & column & _ & _ & ? & _).
  - cbn [mazeCells]. rewrite elem_of_app, elem_of_columnCells, IH. split.
    + intros [(-> & j & -> & Hj)|(i & j & column & -> & -> & Hi & Hj)].
      * exists 0%nat, j, c. repeat split; (lia || done).
      * exists (S i), j, column. repeat split; (lia || done).
    + intros ([|i] & j & column & -> & -> & Hi & Hj).
      * injection Hi as <-. left. split; [lia|]. exists j. split; [lia|done].
      * right. exists i, j, column. repeat split; (lia || done).
Qed.

Lemma tileAt_mazeCells maze x y tile :
  tileAt maze x y = Some tile <-> (x, y, tile) ∈ mazeCells 0 maze.
Proof.
  rewrite elem_of_mazeCells. unfold tileAt. split.
  - destruct ((0 <=? x) && (0 <=? y)) eqn:E; [|done].
    apply andb_true_iff in E as [Hx%Z.leb_le Hy%Z.leb_le].
    destruct (maze !! Z.to_nat x) as [column|] eqn:Hc; [|done]. simpl.
    intros Ht. exists (Z.to_nat x), (Z.to_nat y), column.
    repeat split; (lia || done).
  - intros (i & j & column & -> & -> & Hi & Hj).
    replace ((0 <=? 0 + Z.of_nat i) && (0 <=? Z.of_nat j)) with true
      by (symmetry; apply andb_true_iff; split; apply Z.leb_le; lia).
    replace (Z.to_nat (0 + Z.of_nat i)) with i by lia. rewrite Hi. simpl.
    by rewrite Nat2Z.id.
Qed.

(** X11.  After [loadMaze] (on a file with no more lines than an [int]
    counts) the tile at column [x], row [y] of the maze is the tile of
    the line that carries the coordinates [(x, y)], and the maze has no
    other tiles. *)
Theorem loadMaze_tileAt fs path content maze x y tile :
  node fs path = Readable content ->
  Z.of_nat (length (getlines content)) <= INT_MAX ->
  loadMaze fs path = Some maze ->
  tileAt maze x y = Some tile <->
  exists line, line ∈ getlines content /\ lineCell line = Some (x, y, tile).
Proof.
  intros Hnode Hbound Hload.
  pose proof (loadMaze_cells _ _ _ _ Hnode Hbound Hload) as Hcells.
  rewrite tileAt_mazeCells. split.
  - intros Hin. apply list_elem_of_lookup in Hin as [i Hi].
    destruct (Forall2_lookup_r _ _ _ _ _ Hcells Hi) as (line & Hl & Hline).
    exists line. split; [|done]. by eapply list_elem_of_lookup_2.
  - intros (line & Hin & Hline). apply list_elem_of_lookup in Hin as [i Hi].
    destruct (Forall2_lookup_l _ _ _ _ _ Hcells Hi) as (c & Hc & Hline').
    rewrite Hline in Hline'. injection Hline' as <-.
    by eapply list_elem_of_lookup_2.
Qed.

Lemma loadMaze_tileAt_witness :
  tileAt scenarioMaze 0 1 = Some (tileOf 0 1 1 0) <->
  exists line,
    line ∈ getlines scenarioFile /\
    lineCell line = Some (0, 1, tileOf 0 1 1 0).
Proof.
  apply (loadMaze_tileAt (fsWith "maze.maz" scenarioFile) "maze.maz"
           scenarioFile scenarioMaze 0 1 (tileOf 0 1 1 0)).
  - reflexivity.
  - vm_compute. discriminate.
  - vm_compute. reflexivity.
Defined.

(** X12.  What [loadMaze] returns (for a file with no more lines than
    an [int] counts) has a column, has no empty column, has the four
    flags in every tile, and has as many tiles as the file has
    lines. *)
Theorem loaded_maze_shape fs path content maze :
  node fs path = Readable content ->
  Z.of_nat (length (getlines content)) <= INT_MAX ->
  loadMaze fs path = Some maze ->
  maze <> [] /\
  Forall (fun column => column <> []) maze /\
  Forall (Forall fullTile) maze /\
  length (concat maze) = length (getlines content).
Proof.
  intros Hnode Hbound Hload.
  destruct (loadMaze_storable _ _ _ _ Hnode Hbound Hload)
    as (Hne & Hcols & Hfull & _).
  split; [done|]. split; [done|]. split; [done|].
  pose proof (loadMaze_cells _ _ _ _ Hnode Hbound Hload) as Hcells.
  apply Forall2_length in Hcells.
  by rewrite Hcells, <- (mazeCells_tiles maze 0), length_fmap.
Qed.

Lemma loaded_maze_shape_witness :
  scenarioMaze <> [] /\
  Forall (fun column => column <> []) scenarioMaze /\
  Forall (Forall fullTile) scenarioMaze /\
  length (concat scenarioMaze) = length (getlines scenarioFile).
Proof.
  apply (loaded_maze_shape (fsWith "maze.maz" scenarioFile) "maze.maz"
           scenarioFile scenarioMaze).
  - reflexivity.
  - vm_compute. discriminate.
  - vm_compute. reflexivity.
Defined.

(** X13.  Saving a maze that was loaded from a file (with no more lines
    than an [int] counts) writes the lines of that file over again,
    each in the form [saveMaze] gives a line: the same coordinates and
    the same wall values, separated by single blanks. *)
Theorem resave_rewrites_lines fs path content maze path' :
  node fs path = Readable content ->
  Z.of_nat (length (getlines content)) <= INT_MAX ->
  loadMaze fs path = Some maze ->
  writable fs path' = true ->
  exists cells,
    mapM lineCell (getlines content) = Some cells /\
    saveMaze fs maze path' =
      Some (write_file fs path' (fileOfLines (cellLine <$> cells)), []).
Proof.
  intros Hnode Hbound Hload Hw.
  pose proof (loadMaze_cells _ _ _ _ Hnode Hbound Hload) as Hcells.
  destruct (loadMaze_storable _ _ _ _ Hnode Hbound Hload)
    as (Hne & Hcols & Hfull & Hsize).
  exists (mazeCells 0 maze). split; [by apply mapM_Some|].
  pose proof (length_concat_columns maze Hcols) as Hlen.
  unfold saveMaze. rewrite Hw. simpl.
  rewrite mazeText_cells; [done|done| |done|lia].
  eapply Forall_impl; [apply length_column_concat|]. simpl. intros. lia.
Qed.

Lemma resave_rewrites_lines_witness :
  exists cells,
    mapM lineCell (getlines scenarioFile) = Some cells /\
    saveMaze (fsWith "maze.maz" scenarioFile) scenarioMaze "copy.maz" =
      Some (write_file (fsWith "maze.maz" scenarioFile) "copy.maz"
              (fileOfLines (cellLine <$> cells)), []).
Proof.
  apply (resave_rewrites_lines (fsWith "maze.maz" scenarioFile) "maze.maz"
           scenarioFile scenarioMaze "copy.maz").
  - reflexivity.
  - vm_compute. discriminate.
  - vm_compute. reflexivity.
  - reflexivity.
Defined.

(** * Properties of the triangle buffer *)

Section GraphicProofs.

Import GraphicUtilities.

Context {GLfloat Polygon Coordinate : Type}.
Variable triangulate : Polygon -> list (Coordinate * Coordinate * Coordinate).
Variable getOpenGlCoordinates : Coordinate -> GLfloat * GLfloat.
Variable directionValue : Direction -> Z.
Variable one : GLfloat.

Lemma int_mul_small n m :
  INT_MIN <= n * m <= INT_MAX -> int_mul n m = n * m.
Proof. apply wrap_int_small. Qed.

Lemma spliced_cons_inside {A} (k : nat) (tg : A) tgs TGB :
  (k < length TGB)%nat ->
  spliced (S k) tgs (<[k := tg]> TGB) = spliced k (tg :: tgs) TGB.
Proof.
  intros Hk. unfold spliced.
  rewrite (take_S_r _ _ tg) by (by apply list_lookup_insert_eq).
  rewrite take_insert_ge by lia. rewrite <- app_assoc. cbn [app length].
  rewrite drop_insert_lt by lia.
  by replace (S k + length tgs)%nat with (k + S (length tgs))%nat by lia.
Qed.

Lemma spliced_cons_outside {A} (k : nat) (tg : A) tgs TGB :
  (length TGB <= k)%nat ->
  spliced (S k) tgs (TGB ++ [tg]) = spliced k (tg :: tgs) TGB.
Proof.
  intros Hk. unfold spliced.
  rewrite !take_ge, !drop_ge by (rewrite ?length_app; simpl; lia).
  by rewrite <- app_assoc.
Qed.

(** The loop of the draw functions stores the triangles from [index]
    on, and at the end of the buffer when it is shorter than that. *)
Lemma storeTriangles_spliced (tgs : list (TriangleGraphic GLfloat)) :
  forall (i : nat) TGB index,
    0 <= index ->
    index + Z.of_nat i + Z.of_nat (length tgs) <= INT_MAX ->
    storeTriangles index (Z.of_nat i) tgs TGB
    = spliced (Z.to_nat index + i) tgs TGB.
Proof.
  induction tgs as [|tg tgs IH]; intros i TGB index Hindex Hbound.
  - unfold spliced. simpl. by rewrite Nat.add_0_r, take_drop.
  - cbn [storeTriangles length] in *. unfold INT_MAX in Hbound.
    rewrite !int_add_small by (unfold INT_MIN, INT_MAX; lia).
    rewrite to_size_t_small by (unfold INT_MAX; lia).
    replace (Z.of_nat i + 1) with (Z.of_nat (S i)) by lia.
    rewrite IH by (unfold INT_MAX; lia).
    replace (Z.to_nat index + S i)%nat with (S (Z.to_nat index + i)) by lia.
    replace (Z.to_nat (index + Z.of_nat i)) with (Z.to_nat index + i)%nat
      by lia.
    destruct (index + Z.of_nat i <? Z.of_nat (length TGB)) eqn:E.
    + apply Z.ltb_lt in E. apply spliced_cons_inside. lia.
    + apply Z.ltb_ge in E. apply spliced_cons_outside. lia.
Qed.

Lemma storeTriangles_from_zero (tgs TGB : list (TriangleGraphic GLfloat))
    index :
  0 <= index -> index + Z.of_nat (length tgs) <= INT_MAX ->
  storeTriangles index 0 tgs TGB = spliced (Z.to_nat index) tgs TGB.
Proof.
  intros Hindex Hbound.
  pose proof (storeTriangles_spliced tgs 0 TGB index Hindex) as E.
  rewrite Nat.add_0_r in E. apply E. rewrite Z.add_0_r. exact Hbound.
Qed.

Lemma length_polygonToTriangleGraphics polygon color alpha :
  length (polygonToTriangleGraphics triangulate getOpenGlCoordinates
            polygon color alpha)
  = length (triangulate polygon).
Proof. unfold polygonToTriangleGraphics. by rewrite length_fmap. Qed.

Lemma partIndex_base x y :
  partIndex directionValue x y BasePart = baseIndex x y.
Proof. reflexivity. Qed.

Lemma partIndex_wall x y d :
  partIndex directionValue x y (WallPart d) = wallIndex directionValue x y d.
Proof. reflexivity. Qed.

Lemma partIndex_corner x y c :
  partIndex directionValue x y (CornerPart c) = cornerIndex x y c.
Proof. reflexivity. Qed.

Lemma partIndex_fog x y : partIndex directionValue x y FogPart = fogIndex x y.
Proof. reflexivity. Qed.

(** Each draw function is the loop at the index of its part. *)
Lemma drawTileGraphic_store part x y polygon color alpha
    (TGB : list (TriangleGraphic GLfloat)) :
  drawTileGraphic triangulate getOpenGlCoordinates directionValue one
    part x y polygon color alpha TGB
  = storeTriangles (partIndex directionValue x y part) 0
      (polygonToTriangleGraphics triangulate getOpenGlCoordinates polygon
         color (partAlpha one part alpha))
      TGB.
Proof.
  destruct part;
    [rewrite partIndex_base|rewrite partIndex_wall|rewrite partIndex_corner
    |rewrite partIndex_fog]; reflexivity.
Qed.

(** X14.  With its index computed without overflow and not negative,
    each of the four [drawTileGraphic...] functions leaves the buffer
    with the triangles of the polygon in the slots from the index on
    when the buffer reaches that far, keeps what was before and after
    these slots, and lengthens the buffer when the triangles do not
    fit. *)
Theorem draw_is_splice part x y polygon color alpha
    (TGB : list (TriangleGraphic GLfloat)) :
  0 <= partIndex directionValue x y part ->
  partIndex directionValue x y part
    + Z.of_nat (length (triangulate polygon)) <= INT_MAX ->
  drawTileGraphic triangulate getOpenGlCoordinates directionValue one
    part x y polygon color alpha TGB
  = spliced (Z.to_nat (partIndex directionValue x y part))
      (polygonToTriangleGraphics triangulate getOpenGlCoordinates polygon
         color (partAlpha one part alpha))
      TGB.
Proof.
  intros Hindex Hbound. rewrite drawTileGraphic_store.
  apply storeTriangles_from_zero; [exact Hindex|].
  rewrite length_polygonToTriangleGraphics. exact Hbound.
Qed.

(** X15.  A draw function never leaves a hole in the buffer: when the
    buffer ends before the index of the part, the triangles are pushed
    at the back, so that they do not lie at the index of the part. *)
Theorem draw_past_end part x y polygon color alpha
    (TGB : list (TriangleGraphic GLfloat)) :
  Z.of_nat (length TGB) <= partIndex directionValue x y part ->
  partIndex directionValue x y part
    + Z.of_nat (length (triangulate polygon)) <= INT_MAX ->
  drawTileGraphic triangulate getOpenGlCoordinates directionValue one
    part x y polygon color alpha TGB
  = TGB ++ polygonToTriangleGraphics triangulate getOpenGlCoordinates polygon
             color (partAlpha one part alpha).
Proof.
  intros Hend Hbound. rewrite drawTileGraphic_store.
  rewrite storeTriangles_from_zero;
    [|lia|rewrite length_polygonToTriangleGraphics; exact Hbound].
  unfold spliced. rewrite take_ge, drop_ge by lia. by rewrite app_nil_r.
Qed.

(** ** The update functions *)

Lemma runUpdate_updateTriangles (call : UpdateCall GLfloat) x y TGB :
  runUpdate directionValue call x y TGB
  = updateTriangles (onVertices (updateChange call))
      (partIndex directionValue x y (updatePart call)) [0; 1] TGB.
Proof.
  destruct call; cbn [updatePart];
    [rewrite partIndex_base|rewrite partIndex_wall|rewrite partIndex_fog];
    reflexivity.
Qed.

Lemma updateTriangles_two (f : TriangleGraphic GLfloat -> TriangleGraphic GLfloat)
    index TGB :
  0 <= index -> index + 1 <= INT_MAX ->
  updateTriangles f index [0; 1] TGB = updateOutcome f (Z.to_nat index) TGB.
Proof.
  intros Hindex Hbound. unfold INT_MAX in Hbound.
  cbn [updateTriangles].
  rewrite !int_add_small by (unfold INT_MIN, INT_MAX; lia).
  rewrite !to_size_t_small by (unfold INT_MAX; lia).
  rewrite Z.add_0_r.
  replace (Z.to_nat (index + 1)) with (S (Z.to_nat index)) by lia.
  unfold updateOutcome.
  destruct (TGB !! Z.to_nat index) as [t0|] eqn:E0; [|done].
  rewrite list_lookup_insert_ne by lia.
  by destruct (TGB !! S (Z.to_nat index)).
Qed.

(** X16.  With its index computed without overflow and not negative,
    an update function changes the two triangles of its part when both
    are in the buffer; it throws when the second one is not, after it
    has changed the first one if that one is in the buffer. *)
Theorem update_outcome (call : UpdateCall GLfloat) x y TGB :
  0 <= partIndex directionValue x y (updatePart call) ->
  partIndex directionValue x y (updatePart call) + 1 <= INT_MAX ->
  runUpdate directionValue call x y TGB
  = updateOutcome (onVertices (updateChange call))
      (Z.to_nat (partIndex directionValue x y (updatePart call))) TGB /\
  (threw (runUpdate directionValue call x y TGB) = true <->
   Z.of_nat (length TGB)
   <= partIndex directionValue x y (updatePart call) + 1).
Proof.
  intros Hindex Hbound.
  rewrite runUpdate_updateTriangles, updateTriangles_two by done.
  split; [done|]. unfold updateOutcome.
  set (i := Z.to_nat (partIndex directionValue x y (updatePart call))).
  replace (partIndex directionValue x y (updatePart call)) with (Z.of_nat i)
    by lia.
  destruct (TGB !! i) as [t0|] eqn:E0.
  - destruct (TGB !! S i) as [t1|] eqn:E1; simpl.
    + apply lookup_lt_Some in E1. split; [done|lia].
    + apply lookup_ge_None in E1. split; [lia|done].
  - apply lookup_ge_None in E0. simpl. split; [lia|done].
Qed.

Lemma positions_updateChange (call : UpdateCall GLfloat) t :
  positions (onVertices (updateChange call) t) = positions t.
Proof. by destruct call. Qed.

Lemma fmap_insert_same {A B} (h : A -> B) (f : A -> A) (l : list A) i t :
  l !! i = Some t -> h (f t) = h t -> h <$> <[i := f t]> l = h <$> l.
Proof.
  intros Hi Hh. rewrite list_fmap_insert, Hh.
  apply list_insert_id. by rewrite list_lookup_fmap, Hi.
Qed.

Lemma updateOutcome_fmap {A B} (h : A -> B) (f : A -> A) i (l : list A) :
  (forall t, h (f t) = h t) ->
  h <$> bufferOf (updateOutcome f i l) = h <$> l.
Proof.
  intros Hh. unfold updateOutcome.
  destruct (l !! i) as [t0|] eqn:E0; [|done].
  destruct (l !! S i) as [t1|] eqn:E1; simpl.
  - rewrite (fmap_insert_same h f _ (S i) t1); [| |done].
    + by apply fmap_insert_same.
    + by rewrite list_lookup_insert_ne by lia.
  - by apply fmap_insert_same.
Qed.

Lemma updateOutcome_lookup {A} (f : A -> A) i (l : list A) k :
  k <> i -> k <> S i -> bufferOf (updateOutcome f i l) !! k = l !! k.
Proof.
  intros H0 H1. unfold updateOutcome.
  destruct (l !! i) as [t0|]; [|done].
  destruct (l !! S i) as [t1|]; simpl;
    by rewrite ?list_lookup_insert_ne by done.
Qed.

(** X17.  Whether it throws or not, an update function leaves the
    buffer with the triangles it had at every index but the two of its
    part, and with the same vertex positions everywhere; the one for
    the base colour keeps every alpha, and the one for the fog keeps
    every colour. *)
Theorem update_keeps_the_rest (call : UpdateCall GLfloat) x y TGB :
  0 <= partIndex directionValue x y (updatePart call) ->
  partIndex directionValue x y (updatePart call) + 1 <= INT_MAX ->
  let after := bufferOf (runUpdate directionValue call x y TGB) in
  length after = length TGB /\
  positions <$> after = positions <$> TGB /\
  (forall k : nat,
     Z.of_nat k <> partIndex directionValue x y (updatePart call) ->
     Z.of_nat k <> partIndex directionValue x y (updatePart call) + 1 ->
     after !! k = TGB !! k) /\
  (updatePart call = BasePart -> alphas <$> after = alphas <$> TGB) /\
  (updatePart call = FogPart -> colors <$> after = colors <$> TGB).
Proof.
  intros Hindex Hbound after. subst after.
  rewrite runUpdate_updateTriangles, updateTriangles_two by done.
  assert (positions <$> bufferOf
            (updateOutcome (onVertices (updateChange call))
               (Z.to_nat (partIndex directionValue x y (updatePart call))) TGB)
          = positions <$> TGB) as Hpos
    by (apply updateOutcome_fmap, positions_updateChange).
  split; [|split; [done|split; [|split]]].
  - apply (f_equal length) in Hpos. by rewrite !length_fmap in Hpos.
  - intros k H0 H1. apply updateOutcome_lookup; lia.
  - intros Hpart. apply updateOutcome_fmap. intros t.
    by destruct call.
  - intros Hpart. apply updateOutcome_fmap. intros t.
    by destruct call.
Qed.

Lemma spliced_overwrite {A} (i : nat) (tgs tgs' TGB : list A) :
  (i <= length TGB)%nat -> length tgs = length tgs' ->
  spliced i tgs' (spliced i tgs TGB) = spliced i tgs' TGB.
Proof.
  intros Hi Hlen. unfold spliced.
  assert (length (take i TGB) = i) as Htake by (rewrite length_take; lia).
  rewrite take_app_length' by done.
  rewrite <- Hlen.
  rewrite <- (drop_drop (take i TGB ++ tgs ++ drop (i + length tgs) TGB)).
  rewrite drop_app_length' by done.
  by rewrite drop_app_length.
Qed.

(** X18.  The last draw wins: when the buffer reaches the index of a
    part, drawing the part again with a polygon of as many triangles
    leaves the buffer as if only the second draw had happened. *)
Theorem draw_overwrites_draw part x y polygon polygon' color color'
    alpha alpha' (TGB : list (TriangleGraphic GLfloat)) :
  0 <= partIndex directionValue x y part <= Z.of_nat (length TGB) ->
  partIndex directionValue x y part
    + Z.of_nat (length (triangulate polygon)) <= INT_MAX ->
  length (triangulate polygon') = length (triangulate polygon) ->
  drawTileGraphic triangulate getOpenGlCoordinates directionValue one
    part x y polygon' color' alpha'
    (drawTileGraphic triangulate getOpenGlCoordinates directionValue one
       part x y polygon color alpha TGB)
  = drawTileGraphic triangulate getOpenGlCoordinates directionValue one
      part x y polygon' color' alpha' TGB.
Proof.
  intros Hindex Hbound Hlen. rewrite !drawTileGraphic_store.
  rewrite !storeTriangles_from_zero;
    try lia;
    try (rewrite length_polygonToTriangleGraphics, ?Hlen; exact Hbound).
  apply spliced_overwrite; [lia|].
  by rewrite !length_polygonToTriangleGraphics.
Qed.

Lemma updateOutcome_spliced {A} (f : A -> A) (i : nat) (t0 t1 : A)
    (TGB : list A) :
  (i <= length TGB)%nat ->
  updateOutcome f i (spliced i [t0; t1] TGB)
  = Done (spliced i [f t0; f t1] TGB).
Proof.
  intros Hi. unfold updateOutcome, spliced.
  assert (length (take i TGB) = i) as Htake by (rewrite length_take; lia).
  cbn [length app].
  rewrite (lookup_app_r _ _ i), (lookup_app_r _ _ (S i)) by lia.
  rewrite Htake, Nat.sub_diag.
  replace (S i - i)%nat with 1%nat by lia. cbn [lookup list_lookup].
  f_equal.
  rewrite (insert_app_r_alt _ _ i) by lia.
  rewrite (insert_app_r_alt _ _ (S i)) by lia.
  rewrite Htake, Nat.sub_diag.
  by replace (S i - i)%nat with 1%nat by lia.
Qed.

Lemma onVertices_polygonToTriangleGraphics (call : UpdateCall GLfloat)
    polygon color alpha :
  onVertices (updateChange call)
    <$> polygonToTriangleGraphics triangulate getOpenGlCoordinates polygon
          color alpha
  = polygonToTriangleGraphics triangulate getOpenGlCoordinates polygon
      (updatedColor call color) (updatedAlpha call alpha).
Proof.
  unfold polygonToTriangleGraphics. rewrite <- list_fmap_compose.
  apply list_fmap_ext. intros _ t _. by destruct call.
Qed.

(** X19.  An update after the draw of the same part, with a polygon of
    two triangles and a buffer that reaches the index of the part, does
    not throw, and leaves the buffer the draw would have left with the
    colour and the alpha of the update. *)
Theorem update_after_draw (call : UpdateCall GLfloat) x y polygon color alpha
    (TGB : list (TriangleGraphic GLfloat)) :
  length (triangulate polygon) = 2%nat ->
  0 <= partIndex directionValue x y (updatePart call)
    <= Z.of_nat (length TGB) ->
  partIndex directionValue x y (updatePart call) + 2 <= INT_MAX ->
  runUpdate directionValue call x y
    (drawTileGraphic triangulate getOpenGlCoordinates directionValue one
       (updatePart call) x y polygon color alpha TGB)
  = Done
      (drawTileGraphic triangulate getOpenGlCoordinates directionValue one
         (updatePart call) x y polygon (updatedColor call color)
         (updatedAlpha call alpha) TGB).
Proof.
  intros Htwo Hindex Hbound.
  rewrite runUpdate_updateTriangles, updateTriangles_two by lia.
  rewrite !drawTileGraphic_store.
  rewrite !storeTriangles_from_zero;
    try lia; try (rewrite length_polygonToTriangleGraphics, Htwo; exact Hbound).
  assert (partAlpha one (updatePart call) (updatedAlpha call alpha)
          = updatedAlpha call (partAlpha one (updatePart call) alpha)) as ->
    by (by destruct call).
  rewrite <- onVertices_polygonToTriangleGraphics.
  pose proof (length_polygonToTriangleGraphics polygon color
                (partAlpha one (updatePart call) alpha)) as Hlen.
  rewrite Htwo in Hlen.
  destruct (polygonToTriangleGraphics triangulate getOpenGlCoordinates
              polygon color (partAlpha one (updatePart call) alpha))
    as [|t0 [|t1 [|? ?]]]; try discriminate Hlen.
  cbn [fmap list_fmap]. apply updateOutcome_spliced. lia.
Qed.

(** ** The layout of the buffer *)

Lemma tileIndex_plain x y :
  0 <= x -> 0 <= y -> 20 * (16 * x + y) <= INT_MAX ->
  tileIndex x y = 20 * (16 * x + y).
Proof.
  intros Hx Hy Hbound. unfold INT_MAX in Hbound.
  unfold tileIndex, int_mul.
  rewrite (wrap_int_small (16 * x)) by (unfold INT_MIN, INT_MAX; lia).
  rewrite int_add_small by (unfold INT_MIN, INT_MAX; lia).
  rewrite wrap_int_small by (unfold INT_MIN, INT_MAX; lia).
  reflexivity.
Qed.

Lemma partIndex_plain x y part :
  0 <= x -> 0 <= y -> validPart directionValue part ->
  20 * (16 * x + y) + 19 <= INT_MAX ->
  partIndex directionValue x y part
  = 20 * (16 * x + y) + partOffset directionValue part.
Proof.
  intros Hx Hy Hpart Hbound.
  assert (tileIndex x y = 20 * (16 * x + y)) as Htile
    by (apply tileIndex_plain; lia).
  unfold INT_MAX in Hbound.
  destruct part as [|d|c|]; cbn [validPart partOffset] in *.
  - rewrite partIndex_base. unfold baseIndex. rewrite Htile. lia.
  - rewrite partIndex_wall. unfold wallIndex, int_mul. rewrite Htile.
    rewrite (wrap_int_small (2 * directionValue d))
      by (unfold INT_MIN, INT_MAX; lia).
    rewrite (int_add_small (20 * (16 * x + y)) 2)
      by (unfold INT_MIN, INT_MAX; lia).
    rewrite int_add_small by (unfold INT_MIN, INT_MAX; lia). lia.
  - rewrite partIndex_corner. unfold cornerIndex, int_mul. rewrite Htile.
    rewrite (wrap_int_small (2 * c)) by (unfold INT_MIN, INT_MAX; lia).
    rewrite (int_add_small (20 * (16 * x + y)) 10)
      by (unfold INT_MIN, INT_MAX; lia).
    rewrite int_add_small by (unfold INT_MIN, INT_MAX; lia). lia.
  - rewrite partIndex_fog. unfold fogIndex. rewrite Htile.
    rewrite int_add_small by (unfold INT_MIN, INT_MAX; lia). lia.
Qed.

Lemma partOffset_range part :
  validPart directionValue part ->
  0 <= partOffset directionValue part <= 18 /\
  exists k, partOffset directionValue part = 2 * k.
Proof.
  destruct part as [|d|c|]; cbn [validPart partOffset]; intros H.
  - split; [lia|]. by exists 0.
  - split; [lia|]. exists (1 + directionValue d). lia.
  - split; [lia|]. exists (5 + c). lia.
  - split; [lia|]. by exists 9.
Qed.

Lemma partOffset_inj part part' :
  (forall d d', directionValue d = directionValue d' -> d = d') ->
  validPart directionValue part -> validPart directionValue part' ->
  partOffset directionValue part = partOffset directionValue part' ->
  part = part'.
Proof.
  intros Hinj.
  destruct part as [|d|c|], part' as [|d'|c'|];
    cbn [validPart partOffset]; intros H H' E; try done; try lia.
  - f_equal. apply Hinj. lia.
  - f_equal. lia.
Qed.

(** X20.  In a maze of at most sixteen rows no two parts share a
    triangle: with the enumerators of [Direction] numbered apart from
    0 to 3, corner numbers from 0 to 3, and no overflow, the index of
    a triangle in the buffer tells the tile, the part and which of the
    two triangles of the part it is. *)
Theorem slots_are_disjoint x y part i x' y' part' i' :
  (forall d d', directionValue d = directionValue d' -> d = d') ->
  0 <= x -> 0 <= y < 16 -> validPart directionValue part ->
  20 * (16 * x + y) + 19 <= INT_MAX ->
  0 <= x' -> 0 <= y' < 16 -> validPart directionValue part' ->
  20 * (16 * x' + y') + 19 <= INT_MAX ->
  0 <= i < 2 -> 0 <= i' < 2 ->
  partIndex directionValue x y part + i
  = partIndex directionValue x' y' part' + i' ->
  x = x' /\ y = y' /\ part = part' /\ i = i'.
Proof.
  intros Hinj Hx Hy Hpart Hbound Hx' Hy' Hpart' Hbound' Hi Hi' E.
  rewrite !partIndex_plain in E by (done || lia).
  destruct (partOffset_range part Hpart) as [Ho [k Hk]].
  destruct (partOffset_range part' Hpart') as [Ho' [k' Hk']].
  assert (x = x') as <- by lia.
  assert (y = y') as <- by lia.
  assert (i = i') as <- by lia.
  repeat split. apply partOffset_inj; [done..|]. lia.
Qed.

(** X21.  The index does not tell the rows from sixteen on apart from
    those of the next column: the parts of the tile (x, y + 16) have
    the indices of the parts of the tile (x + 1, y), so that a draw or
    an update of the one is a draw or an update of the other. *)
Theorem row_sixteen_is_next_column x y :
  0 <= x -> 0 <= y -> 20 * (16 * (x + 1) + y) + 19 <= INT_MAX ->
  (forall part, validPart directionValue part ->
     partIndex directionValue x (y + 16) part
     = partIndex directionValue (x + 1) y part) /\
  (forall part polygon color alpha (TGB : list (TriangleGraphic GLfloat)),
     validPart directionValue part ->
     drawTileGraphic triangulate getOpenGlCoordinates directionValue one
       part x (y + 16) polygon color alpha TGB
     = drawTileGraphic triangulate getOpenGlCoordinates directionValue one
         part (x + 1) y polygon color alpha TGB) /\
  (forall (call : UpdateCall GLfloat) TGB,
     validPart directionValue (updatePart call) ->
     runUpdate directionValue call x (y + 16) TGB
     = runUpdate directionValue call (x + 1) y TGB).
Proof.
  intros Hx Hy Hbound.
  assert (forall part, validPart directionValue part ->
            partIndex directionValue x (y + 16) part
            = partIndex directionValue (x + 1) y part) as Hsame.
  { intros part Hpart. rewrite !partIndex_plain by (done || lia). lia. }
  split; [exact Hsame|split].
  - intros part polygon color alpha TGB Hpart.
    rewrite !drawTileGraphic_store. by rewrite (Hsame part Hpart).
  - intros call TGB Hpart.
    rewrite !runUpdate_updateTriangles. by rewrite (Hsame _ Hpart).
Qed.

(** ** Indices outside the buffer *)

Lemma partIndex_range x y part :
  INT_MIN <= partIndex directionValue x y part <= INT_MAX.
Proof.
  destruct part.
  - rewrite partIndex_base. unfold baseIndex, tileIndex, int_mul.
    apply wrap_int_range.
  - rewrite partIndex_wall. unfold wallIndex, int_add. apply wrap_int_range.
  - rewrite partIndex_corner. unfold cornerIndex, int_add.
    apply wrap_int_range.
  - rewrite partIndex_fog. unfold fogIndex, int_add. apply wrap_int_range.
Qed.

Lemma to_size_t_negative z : - 2 ^ 63 <= z < 0 -> to_size_t z = z + 2 ^ 64.
Proof.
  intros Hz. unfold to_size_t. symmetry.
  apply (Z.mod_unique_pos _ _ (-1)); lia.
Qed.

Lemma storeTriangles_negative (tgs : list (TriangleGraphic GLfloat)) :
  forall i TGB index,
    INT_MIN <= index -> 0 <= i ->
    index + i + Z.of_nat (length tgs) <= 0 ->
    Z.of_nat (length TGB) + Z.of_nat (length tgs) <= 2 ^ 63 ->
    storeTriangles index i tgs TGB = TGB ++ tgs.
Proof.
  induction tgs as [|tg tgs IH]; intros i TGB index Hmin Hi Hneg Hsize.
  - simpl. by rewrite app_nil_r.
  - cbn [storeTriangles length] in *. unfold INT_MIN in Hmin.
    rewrite (int_add_small index i) by (unfold INT_MIN, INT_MAX; lia).
    rewrite to_size_t_negative by lia.
    destruct (index + i + 2 ^ 64 <? Z.of_nat (length TGB)) eqn:E;
      [apply Z.ltb_lt in E; lia|].
    destruct tgs as [|tg' tgs]; [done|].
    rewrite (int_add_small i 1)
      by (cbn [length] in Hneg; unfold INT_MIN, INT_MAX; lia).
    rewrite IH; [by rewrite <- app_assoc|unfold INT_MIN; lia|lia|lia|].
    rewrite length_app. cbn [length] in *. lia.
Qed.

(** X22.  When the index of the part is so far below zero that it is
    negative for every triangle of the polygon, the comparison with the
    unsigned size of a buffer of at most 2^63 triangles fails each
    time, and a draw function pushes all the triangles at the back. *)
Theorem draw_at_negative_index part x y polygon color alpha
    (TGB : list (TriangleGraphic GLfloat)) :
  partIndex directionValue x y part
    + Z.of_nat (length (triangulate polygon)) <= 0 ->
  Z.of_nat (length TGB) + Z.of_nat (length (triangulate polygon)) <= 2 ^ 63 ->
  drawTileGraphic triangulate getOpenGlCoordinates directionValue one
    part x y polygon color alpha TGB
  = TGB ++ polygonToTriangleGraphics triangulate getOpenGlCoordinates polygon
             color (partAlpha one part alpha).
Proof.
  intros Hneg Hsize. rewrite drawTileGraphic_store.
  apply storeTriangles_negative;
    rewrite ?length_polygonToTriangleGraphics, ?Z.add_0_r;
    [apply partIndex_range|done|exact Hneg|exact Hsize].
Qed.

(** X23.  At a negative index an update function throws on its first
    access and leaves a buffer of at most 2^63 triangles as it was. *)
Theorem update_at_negative_index (call : UpdateCall GLfloat) x y TGB :
  partIndex directionValue x y (updatePart call) < 0 ->
  Z.of_nat (length TGB) <= 2 ^ 63 ->
  runUpdate directionValue call x y TGB = Threw TGB.
Proof.
  intros Hneg Hsize. rewrite runUpdate_updateTriangles.
  pose proof (partIndex_range x y (updatePart call)) as Hrange.
  revert Hneg Hrange.
  generalize (partIndex directionValue x y (updatePart call)).
  intros index Hneg Hrange. unfold INT_MIN, INT_MAX in Hrange.
  cbn [updateTriangles].
  rewrite (int_add_small index 0) by (unfold INT_MIN, INT_MAX; lia).
  rewrite to_size_t_negative by lia.
  rewrite (proj2 (lookup_ge_None TGB _)); [done|lia].
Qed.

(** X24.  A tile part drawn after the mouse polygon, at the index where
    the buffer ended before the mouse was drawn, takes the slots of the
    mouse: the first triangles of the mouse are overwritten, as many as
    the part has. *)
Theorem draw_over_mouse part x y polygon color alpha mouse mouseColor
    (TGB : list (TriangleGraphic GLfloat)) :
  partIndex directionValue x y part = Z.of_nat (length TGB) ->
  partIndex directionValue x y part
    + Z.of_nat (length (triangulate polygon)) <= INT_MAX ->
  drawTileGraphic triangulate getOpenGlCoordinates directionValue one
    part x y polygon color alpha
    (drawMousePolygon triangulate getOpenGlCoordinates one mouse mouseColor
       TGB)
  = TGB
    ++ polygonToTriangleGraphics triangulate getOpenGlCoordinates polygon
         color (partAlpha one part alpha)
    ++ drop (length (triangulate polygon))
         (polygonToTriangleGraphics triangulate getOpenGlCoordinates mouse
            mouseColor one).
Proof.
  intros Hindex Hbound. rewrite drawTileGraphic_store.
  rewrite storeTriangles_from_zero;
    [|lia|rewrite length_polygonToTriangleGraphics; exact Hbound].
  rewrite Hindex, Nat2Z.id. unfold spliced, drawMousePolygon.
  rewrite take_app_length, drop_app_add.
  by rewrite length_polygonToTriangleGraphics.
Qed.

End GraphicProofs.

(** ** The buffer functions on the example buffer *)

Lemma draw_is_splice_witness :
  drawTileGraphic exampleTriangulate exampleCoordinates exampleDirectionValue
    1 (WallPart EAST) 0 0 exampleSquare exampleColor 7 exampleTGB
  = spliced (Z.to_nat (partIndex exampleDirectionValue 0 0 (WallPart EAST)))
      (GraphicUtilities.polygonToTriangleGraphics exampleTriangulate
         exampleCoordinates exampleSquare exampleColor
         (partAlpha 1 (WallPart EAST) 7))
      exampleTGB.
Proof.
  apply (draw_is_splice exampleTriangulate exampleCoordinates
           exampleDirectionValue 1 (WallPart EAST) 0 0 exampleSquare
           exampleColor 7 exampleTGB).
  - vm_compute. discriminate.
  - vm_compute. discriminate.
Defined.

Lemma draw_past_end_witness :
  drawTileGraphic exampleTriangulate exampleCoordinates exampleDirectionValue
    1 FogPart 0 1 exampleSquare exampleColor 7 exampleTGB
  = exampleTGB
    ++ GraphicUtilities.polygonToTriangleGraphics exampleTriangulate
         exampleCoordinates exampleSquare exampleColor
         (partAlpha 1 FogPart 7).
Proof.
  apply (draw_past_end exampleTriangulate exampleCoordinates
           exampleDirectionValue 1 FogPart 0 1 exampleSquare exampleColor 7
           exampleTGB).
  - vm_compute. discriminate.
  - vm_compute. discriminate.
Defined.

Lemma update_outcome_witness :
  runUpdate exampleDirectionValue (FogAlpha 9) 0 0 (take 19 exampleTGB)
  = updateOutcome (GraphicUtilities.onVertices (updateChange (FogAlpha 9)))
      (Z.to_nat (partIndex exampleDirectionValue 0 0
                   (updatePart (FogAlpha (9 : Z)))))
      (take 19 exampleTGB) /\
  (threw (runUpdate exampleDirectionValue (FogAlpha 9) 0 0
            (take 19 exampleTGB)) = true <->
   Z.of_nat (length (take 19 exampleTGB))
   <= partIndex exampleDirectionValue 0 0 (updatePart (FogAlpha (9 : Z))) + 1).
Proof.
  apply (update_outcome exampleDirectionValue (FogAlpha 9) 0 0
           (take 19 exampleTGB)).
  - vm_compute. discriminate.
  - vm_compute. discriminate.
Defined.

Lemma update_keeps_the_rest_witness :
  let after :=
    bufferOf (runUpdate exampleDirectionValue (FogAlpha 9) 0 0
                (take 19 exampleTGB)) in
  length after = length (take 19 exampleTGB) /\
  positions <$> after = positions <$> take 19 exampleTGB /\
  (forall k : nat,
     Z.of_nat k
     <> partIndex exampleDirectionValue 0 0 (updatePart (FogAlpha (9 : Z))) ->
     Z.of_nat k
     <> partIndex exampleDirectionValue 0 0 (updatePart (FogAlpha (9 : Z))) + 1 ->
     after !! k = take 19 exampleTGB !! k) /\
  (updatePart (FogAlpha (9 : Z)) = BasePart ->
   alphas <$> after = alphas <$> take 19 exampleTGB) /\
  (updatePart (FogAlpha (9 : Z)) = FogPart ->
   colors <$> after = colors <$> take 19 exampleTGB).
Proof.
  apply (update_keeps_the_rest exampleDirectionValue (FogAlpha 9) 0 0
           (take 19 exampleTGB)).
  - vm_compute. discriminate.
  - vm_compute. discriminate.
Defined.

Lemma draw_overwrites_draw_witness :
  drawTileGraphic exampleTriangulate exampleCoordinates exampleDirectionValue
    1 BasePart 0 0 exampleSquare otherColor 5
    (drawTileGraphic exampleTriangulate exampleCoordinates
       exampleDirectionValue 1 BasePart 0 0 exampleSquare exampleColor 7
       exampleTGB)
  = drawTileGraphic exampleTriangulate exampleCoordinates
      exampleDirectionValue 1 BasePart 0 0 exampleSquare otherColor 5
      exampleTGB.
Proof.
  apply (draw_overwrites_draw exampleTriangulate exampleCoordinates
           exampleDirectionValue 1 BasePart 0 0 exampleSquare exampleSquare
           exampleColor otherColor 7 5 exampleTGB).
  - vm_compute. split; discriminate.
  - vm_compute. discriminate.
  - reflexivity.
Defined.

Lemma update_after_draw_witness :
  runUpdate exampleDirectionValue (WallColor SOUTH otherColor 5) 0 0
    (drawTileGraphic exampleTriangulate exampleCoordinates
       exampleDirectionValue 1 (updatePart (WallColor SOUTH otherColor 5))
       0 0 exampleSquare exampleColor 7 exampleTGB)
  = Done
      (drawTileGraphic exampleTriangulate exampleCoordinates
         exampleDirectionValue 1 (updatePart (WallColor SOUTH otherColor 5))
         0 0 exampleSquare
         (updatedColor (WallColor SOUTH otherColor 5) exampleColor)
         (updatedAlpha (WallColor SOUTH otherColor 5) 7) exampleTGB).
Proof.
  apply (update_after_draw exampleTriangulate exampleCoordinates
           exampleDirectionValue 1 (WallColor SOUTH otherColor 5) 0 0
           exampleSquare exampleColor 7 exampleTGB).
  - reflexivity.
  - vm_compute. split; discriminate.
  - vm_compute. discriminate.
Defined.

Lemma slots_are_disjoint_witness :
  (0 : Z) = 0 /\ (3 : Z) = 3 /\ CornerPart 2 = CornerPart 2 /\ (1 : Z) = 1.
Proof.
  apply (slots_are_disjoint exampleDirectionValue 0 3 (CornerPart 2) 1
           0 3 (CornerPart 2) 1).
  - intros [] []; vm_compute; congruence.
  - lia.
  - lia.
  - vm_compute. split; discriminate.
  - vm_compute. discriminate.
  - lia.
  - lia.
  - vm_compute. split; discriminate.
  - vm_compute. discriminate.
  - lia.
  - lia.
  - reflexivity.
Defined.

Lemma row_sixteen_is_next_column_witness :
  (forall part, validPart exampleDirectionValue part ->
     partIndex exampleDirectionValue 0 (0 + 16) part
     = partIndex exampleDirectionValue (0 + 1) 0 part) /\
  (forall part polygon color alpha
          (TGB : list (GraphicUtilities.TriangleGraphic Z)),
     validPart exampleDirectionValue part ->
     drawTileGraphic exampleTriangulate exampleCoordinates
       exampleDirectionValue 1 part 0 (0 + 16) polygon color alpha TGB
     = drawTileGraphic exampleTriangulate exampleCoordinates
         exampleDirectionValue 1 part (0 + 1) 0 polygon color alpha TGB) /\
  (forall (call : UpdateCall Z) TGB,
     validPart exampleDirectionValue (updatePart call) ->
     runUpdate exampleDirectionValue call 0 (0 + 16) TGB
     = runUpdate exampleDirectionValue call (0 + 1) 0 TGB).
Proof.
  apply (row_sixteen_is_next_column exampleTriangulate exampleCoordinates
           exampleDirectionValue 1 0 0).
  - lia.
  - lia.
  - vm_compute. discriminate.
Defined.

Lemma draw_at_negative_index_witness :
  drawTileGraphic exampleTriangulate exampleCoordinates exampleDirectionValue
    1 BasePart (-1) 0 exampleSquare exampleColor 7 exampleTGB
  = exampleTGB
    ++ GraphicUtilities.polygonToTriangleGraphics exampleTriangulate
         exampleCoordinates exampleSquare exampleColor
         (partAlpha 1 BasePart 7).
Proof.
  apply (draw_at_negative_index exampleTriangulate exampleCoordinates
           exampleDirectionValue 1 BasePart (-1) 0 exampleSquare exampleColor
           7 exampleTGB).
  - vm_compute. discriminate.
  - vm_compute. discriminate.
Defined.

Lemma update_at_negative_index_witness :
  runUpdate exampleDirectionValue (BaseColor otherColor) (-1) 0 exampleTGB
  = Threw exampleTGB.
Proof.
  apply (update_at_negative_index exampleDirectionValue
           (BaseColor otherColor) (-1) 0 exampleTGB).
  - vm_compute. reflexivity.
  - vm_compute. discriminate.
Defined.

Lemma draw_over_mouse_witness :
  drawTileGraphic exampleTriangulate exampleCoordinates exampleDirectionValue
    1 BasePart 0 1 exampleSquare exampleColor 7
    (GraphicUtilities.drawMousePolygon exampleTriangulate exampleCoordinates
       1 exampleSquare otherColor exampleTGB)
  = exampleTGB
    ++ GraphicUtilities.polygonToTriangleGraphics exampleTriangulate
         exampleCoordinates exampleSquare exampleColor
         (partAlpha 1 BasePart 7)
    ++ drop (length (exampleTriangulate exampleSquare))
         (GraphicUtilities.polygonToTriangleGraphics exampleTriangulate
            exampleCoordinates exampleSquare otherColor 1).
Proof.
  apply (draw_over_mouse exampleTriangulate exampleCoordinates
           exampleDirectionValue 1 BasePart 0 1 exampleSquare exampleColor 7
           exampleSquare otherColor exampleTGB).
  - vm_compute. reflexivity.
  - vm_compute. discriminate.
Defined.
